(** * DFPWM encoder: the codec of [src/main.py] and its properties

    The development embeds the class [DFPWMCodec] of [src/main.py]
    (the predictor/quantiser state machine and the byte packer) and proves
    the properties the specification states about it.  It also covers the
    chunk splitting of [mp3_to_pcm_s8_chunks], the encoding loop of
    [App._convert_worker] and [normalise_drop_path].

    Python integers are unbounded, so they are modelled by [Z]; Python's
    [>>] on integers is the arithmetic shift, which is [Z.shiftr].  A
    [bytes] value is a list of integers; indexing past the end raises, which
    the model of the loops keeps as [None].  Python refuses a negative shift
    count; the only counts the source uses are [RESP_PREC], [RESP_PREC - 1]
    and, under [RESP_PREC > 8], [RESP_PREC - 8], with [RESP_PREC] set to 8
    or 10 by [__post_init__], so the shifts are written with [Z.shiftl] and
    [Z.shiftr] directly. *)

From Stdlib Require Import ZArith List Bool Lia Arith.
Import ListNotations.

Local Open Scope Z_scope.

(** ** Data model *)

(** The attributes of a [DFPWMCodec] object: the dataclass field
    [newdfpwm] and what [__post_init__] adds to it. *)
Record DFPWMCodec : Type := mkCodec {
  newdfpwm  : bool;
  dfpwm_old : bool;
  RESP_INC  : Z;
  RESP_DEC  : Z;
  RESP_PREC : Z;
  response  : Z;
  level     : Z;
  lastbit   : bool
}.

(** [DFPWMCodec(newdfpwm=flag)]: the constructor followed by
    [__post_init__]. *)
Definition post_init (flag : bool) : DFPWMCodec :=
  {| newdfpwm  := flag;
     dfpwm_old := negb flag;
     RESP_INC  := if flag then 1 else 7;
     RESP_DEC  := if flag then 1 else 20;
     RESP_PREC := if flag then 10 else 8;
     response  := 0;
     level     := 0;
     lastbit   := false |}.

(** ** The context update, [_ctx_update] *)

Module Ctx.

(** [target = 127 if curbit else -128] *)
Definition target (curbit : bool) : Z := if curbit then 127 else -128.

(** The first assignment to [nlevel], before the nudge. *)
Definition level_shifted (c : DFPWMCodec) (curbit : bool) : Z :=
  level c +
  Z.shiftr (response c * (target curbit - level c)
            + Z.shiftl 1 (RESP_PREC c - 1))
           (RESP_PREC c).

(** [nlevel] as committed: the shifted value, nudged by one when it made
    no progress and the level is not at the target. *)
Definition nlevel (c : DFPWMCodec) (curbit : bool) : Z :=
  let nl := level_shifted c curbit in
  if (nl =? level c) && negb (level c =? target curbit)
  then nl + (if curbit then 1 else -1)
  else nl.

(** [rtarget] and [rdelta], chosen by [curbit == self.lastbit]. *)
Definition rtarget (c : DFPWMCodec) (curbit : bool) : Z :=
  if Bool.eqb curbit (lastbit c) then Z.shiftl 1 (RESP_PREC c) - 1 else 0.

Definition rdelta (c : DFPWMCodec) (curbit : bool) : Z :=
  if Bool.eqb curbit (lastbit c) then RESP_INC c else RESP_DEC c.

(** The first assignment to [nresponse]: the [if self.dfpwm_old] branch. *)
Definition response_adapted (c : DFPWMCodec) (curbit : bool) : Z :=
  if dfpwm_old c
  then response c +
       Z.shiftr (rdelta c curbit * (rtarget c curbit - response c) + 128) 8
  else response c.

(** [nresponse] just before the [RESP_PREC > 8] block: the adapted value
    followed by the zero-progress nudge, which the source applies in both
    modes. *)
Definition nresponse_unclamped (c : DFPWMCodec) (curbit : bool) : Z :=
  let nr := response_adapted c curbit in
  if (nr =? response c) && negb (response c =? rtarget c curbit)
  then nr + (if Bool.eqb curbit (lastbit c) then 1 else -1)
  else nr.

(** The [if self.RESP_PREC > 8] block. *)
Definition clamp (c : DFPWMCodec) (nr : Z) : Z :=
  if RESP_PREC c >? 8
  then let min_resp := Z.shiftl 2 (RESP_PREC c - 8) in
       if nr <? min_resp then min_resp else nr
  else nr.

Definition nresponse (c : DFPWMCodec) (curbit : bool) : Z :=
  clamp c (nresponse_unclamped c curbit).

End Ctx.

(** [self._ctx_update(curbit)]: the three attributes are committed at the
    end; every right-hand side reads the state as it was on entry. *)
Definition _ctx_update (c : DFPWMCodec) (curbit : bool) : DFPWMCodec :=
  {| newdfpwm  := newdfpwm c;
     dfpwm_old := dfpwm_old c;
     RESP_INC  := RESP_INC c;
     RESP_DEC  := RESP_DEC c;
     RESP_PREC := RESP_PREC c;
     response  := Ctx.nresponse c curbit;
     level     := Ctx.nlevel c curbit;
     lastbit   := curbit |}.

(** ** The encoder, [compress_pcm_s8_to_dfpwm] *)

(** [inlevel = b - 256 if b > 127 else b] *)
Definition inlevel_of (b : Z) : Z := if b >? 127 then b - 256 else b.

(** [curbit = (inlevel > self.level) or
              (inlevel == self.level and self.level == 127)] *)
Definition curbit_of (c : DFPWMCodec) (inlevel : Z) : bool :=
  (inlevel >? level c) || ((inlevel =? level c) && (level c =? 127)).

(** [d = (d >> 1) + (128 if curbit else 0)] *)
Definition pack (d : Z) (curbit : bool) : Z :=
  Z.shiftr d 1 + (if curbit then 128 else 0).

(** The loop state of the inner [for]: the byte in progress, the read
    index and the codec. *)
Record Loop : Type := mkLoop {
  acc   : Z;
  idx   : nat;
  codec : DFPWMCodec
}.

(** [for _ in range(k)]: one sample per round.  [pcm_s8[idx]] raises
    [IndexError] past the end of the buffer, which is [None] here. *)
Fixpoint for_range (k : nat) (pcm_s8 : list Z) (s : Loop) : option Loop :=
  match k with
  | O => Some s
  | S k' =>
      match nth_error pcm_s8 (idx s) with
      | None => None
      | Some b =>
          let inlevel := inlevel_of b in
          let curbit := curbit_of (codec s) inlevel in
          for_range k' pcm_s8
            {| acc := pack (acc s) curbit;
               idx := S (idx s);
               codec := _ctx_update (codec s) curbit |}
      end
  end.

(** [while idx < n]: each round starts a byte at [d = 0], runs the inner
    loop and appends [d & 0xFF].  The recursion is on the fuel; running out
    of it is [None] as well. *)
Fixpoint while_loop (fuel : nat) (pcm_s8 : list Z) (n : nat)
    (i : nat) (out : list Z) (c : DFPWMCodec) : option (list Z * DFPWMCodec) :=
  if (i <? n)%nat then
    match fuel with
    | O => None
    | S fuel' =>
        match for_range 8 pcm_s8 {| acc := 0; idx := i; codec := c |} with
        | None => None
        | Some s =>
            while_loop fuel' pcm_s8 n (idx s)
                       (out ++ [Z.land (acc s) 255]) (codec s)
        end
    end
  else Some (out, c).

(** The method itself: the bytes returned and the codec as the call leaves
    it.  One round consumes eight samples, so [len(pcm_s8)] rounds of fuel
    are more than the loop can use. *)
Definition compress_pcm_s8_to_dfpwm (c : DFPWMCodec) (pcm_s8 : list Z)
  : option (list Z * DFPWMCodec) :=
  let n := (length pcm_s8 - length pcm_s8 mod 8)%nat in
  while_loop (length pcm_s8) pcm_s8 n 0 [] c.

(** ** The encoder as a function of the sample list

    What the two loops compute, read off the buffer they walk: the codec
    is folded over the samples, the decision bits are collected on the way,
    and each group of eight bits is packed into a byte. *)

(** One round of the inner loop, seen from the codec. *)
Definition sample_step (c : DFPWMCodec) (b : Z) : DFPWMCodec :=
  _ctx_update c (curbit_of c (inlevel_of b)).

(** The codec after the samples of [l], in order. *)
Definition run (c : DFPWMCodec) (l : list Z) : DFPWMCodec :=
  fold_left sample_step l c.

(** The decision bits taken on the samples of [l], first sample first. *)
Fixpoint decisions (c : DFPWMCodec) (l : list Z) : list bool :=
  match l with
  | [] => []
  | b :: l' => curbit_of c (inlevel_of b) :: decisions (sample_step c b) l'
  end.

(** The byte in progress after the bits of [bits] went through [pack]. *)
Definition pack_all (d : Z) (bits : list bool) : Z := fold_left pack bits d.

(** [m] rounds of the outer loop over the buffer [l]. *)
Fixpoint encode_chunks (m : nat) (c : DFPWMCodec) (l : list Z)
  : list Z * DFPWMCodec :=
  match m with
  | O => ([], c)
  | S m' =>
      let g := firstn 8 l in
      let r := encode_chunks m' (run c g) (skipn 8 l) in
      (Z.land (pack_all 0 (decisions c g)) 255 :: fst r, snd r)
  end.

(** ** Modes and invariants *)

(** The two parameter sets [__post_init__] can leave in a codec. *)
Definition current_mode (c : DFPWMCodec) : Prop :=
  newdfpwm c = true /\ dfpwm_old c = false /\
  RESP_INC c = 1 /\ RESP_DEC c = 1 /\ RESP_PREC c = 10.

Definition legacy_mode (c : DFPWMCodec) : Prop :=
  newdfpwm c = false /\ dfpwm_old c = true /\
  RESP_INC c = 7 /\ RESP_DEC c = 20 /\ RESP_PREC c = 8.

Definition configured (c : DFPWMCodec) : Prop :=
  current_mode c \/ legacy_mode c.

(** What every codec reached from a constructed one satisfies: the
    response stays below [2^RESP_PREC] and the level is a signed byte. *)
Record reachable_inv (c : DFPWMCodec) : Prop := mkInv {
  inv_mode     : configured c;
  inv_response : 0 <= response c <= 2 ^ RESP_PREC c - 1;
  inv_level    : -128 <= level c <= 127
}.

(** The packing rule in the words of the specification:
    [acc = (acc >> 1) | (0x80 if bit else 0)]. *)
Definition spec_pack (d : Z) (bit : bool) : Z :=
  Z.lor (Z.shiftr d 1) (if bit then 128 else 0).

Definition spec_pack_all (d : Z) (bits : list bool) : Z :=
  fold_left spec_pack bits d.

(** The first group of the encoder's input used twice in a row, for the
    continuity property. *)
Definition ramp : list Z := [10; 20; 30; 40; 50; 60; 70; 80].

(** ** The audio helper and the worker

    [mp3_to_pcm_s8_chunks] runs the bundled decoder and cuts its output into
    chunks; the loop of [App._convert_worker] encodes the chunks with one
    codec and writes one file per chunk.  The decoder and the file system
    are outside the program: the decoder's outcome is an argument, and the
    worker's writes are kept as the list of [write_bytes] calls it makes.
    What the file system, the path handling and the user interface can
    raise around these calls is not modelled, and no statement below says
    that the worker as a whole succeeds. *)

(** The exceptions the modelled code can raise. *)
Inductive exn : Type :=
| RuntimeError
| ValueError.

Inductive result (A : Type) : Type :=
| Ok (a : A)
| Raise (e : exn).

Arguments Ok {A} a.
Arguments Raise {A} e.

(** [range(i, stop, step)] for a positive [step], one value per round. *)
Fixpoint range_from (fuel i stop step : nat) : list nat :=
  match fuel with
  | O => []
  | S fuel' =>
      if (i <? stop)%nat then i :: range_from fuel' (i + step) stop step
      else []
  end.

(** [pcm[i:i + chunk_size]]: a slice stops at the end of the buffer. *)
Definition slice_from (pcm : list Z) (i chunk_size : nat) : list Z :=
  firstn chunk_size (skipn i pcm).

(** [[pcm[i:i + chunk_size] for i in range(0, len(pcm), chunk_size)]]:
    [range] raises [ValueError] on a zero step and is empty on a negative
    one. *)
Definition split_pcm (pcm : list Z) (chunk_size : Z)
  : result (list (list Z)) :=
  if chunk_size =? 0 then Raise ValueError
  else if chunk_size <? 0 then Ok []
  else Ok (map (fun i => slice_from pcm i (Z.to_nat chunk_size))
               (range_from (length pcm) 0 (length pcm)
                           (Z.to_nat chunk_size))).

(** [mp3_to_pcm_s8_chunks]: [decoded] is what [subprocess.run] gave, [None]
    for [CalledProcessError], which the function turns into
    [RuntimeError].  What the path handling before the decoder runs, or
    [subprocess.run] itself, can raise besides is not modelled; the
    statements below are about a decoder that has returned a buffer. *)
Definition mp3_to_pcm_s8_chunks
    (decoded : option (list Z)) (sample_rate chunk_seconds : Z)
  : result (list (list Z)) :=
  match decoded with
  | None => Raise RuntimeError
  | Some pcm =>
      let chunk_size := sample_rate * chunk_seconds in
      split_pcm pcm chunk_size
  end.

(** [for i, pcm in enumerate(pcm_chunks, start=i)]: the codec object is
    the same in every round; each round ends in
    [write_bytes(out_dir / f"{i}.dfpwm", dfpwm)], kept as the pair
    [(i, dfpwm)].  The result is what the loop hands to [write_bytes]
    when every [write_bytes] and progress call returns; [None] is an
    exception of the encoder. *)
Fixpoint encode_loop (c : DFPWMCodec) (i : nat) (pcm_chunks : list (list Z))
  : option (list (nat * list Z) * DFPWMCodec) :=
  match pcm_chunks with
  | [] => Some ([], c)
  | pcm :: rest =>
      match compress_pcm_s8_to_dfpwm c pcm with
      | None => None
      | Some (dfpwm, c') =>
          match encode_loop c' (S i) rest with
          | None => None
          | Some (files, c'') => Some ((i, dfpwm) :: files, c'')
          end
      end
  end.

(** ** The encoder on signed samples

    The per-sample algorithm run on a sequence of signed samples as they
    are, with no reading of bytes: the decision on the sample itself, the
    packing and the context update, eight samples to a byte.  The method
    on raw bytes is compared with it. *)

(** The two's-complement value of a byte. *)
Definition signed_of_byte (b : Z) : Z := if 128 <=? b then b - 256 else b.

(** One group: the byte in progress and the codec after [samples]. *)
Fixpoint signed_group (c : DFPWMCodec) (d : Z) (samples : list Z)
  : Z * DFPWMCodec :=
  match samples with
  | [] => (d, c)
  | sample :: rest =>
      let bit := curbit_of c sample in
      signed_group (_ctx_update c bit) (pack d bit) rest
  end.

(** [m] groups of eight samples. *)
Fixpoint signed_encode (m : nat) (c : DFPWMCodec) (samples : list Z)
  : list Z * DFPWMCodec :=
  match m with
  | O => ([], c)
  | S m' =>
      let g := signed_group c 0 (firstn 8 samples) in
      let r := signed_encode m' (snd g) (skipn 8 samples) in
      (Z.land (fst g) 255 :: fst r, snd r)
  end.

(** The whole groups of a sequence of signed samples. *)
Definition encode_signed (c : DFPWMCodec) (samples : list Z)
  : list Z * DFPWMCodec :=
  signed_encode (length samples / 8) c samples.

(** The whole groups of eight of a buffer, which is all a call reads. *)
Definition whole_groups (pcm : list Z) : list Z :=
  firstn (8 * (length pcm / 8)) pcm.

(** ** Drop paths, [normalise_drop_path]

    A [str] is the list of its code points.  Which code points
    [str.strip] and [str.split] take for whitespace is Python's table, an
    argument [isspace] here. *)

Definition open_brace : Z := 123.
Definition close_brace : Z := 125.

(** [s.lstrip()] *)
Fixpoint lstrip (isspace : Z -> bool) (s : list Z) : list Z :=
  match s with
  | [] => []
  | ch :: s' => if isspace ch then lstrip isspace s' else s
  end.

(** [s.strip()] *)
Definition strip (isspace : Z -> bool) (s : list Z) : list Z :=
  rev (lstrip isspace (rev (lstrip isspace s))).

(** [s.split()]: the maximal runs of non-whitespace, in order; [cur] is
    the run being read, last code point first. *)
Fixpoint split_go (isspace : Z -> bool) (s cur : list Z) : list (list Z) :=
  match s with
  | [] => match cur with [] => [] | _ => [rev cur] end
  | ch :: s' =>
      if isspace ch
      then match cur with
           | [] => split_go isspace s' []
           | _ => rev cur :: split_go isspace s' []
           end
      else split_go isspace s' (ch :: cur)
  end.

Definition split (isspace : Z -> bool) (s : list Z) : list (list Z) :=
  split_go isspace s [].

(** [s.startswith("{") and s.endswith("}")] *)
Definition braced (s : list Z) : bool :=
  match s with
  | [] => false
  | ch :: _ => (ch =? open_brace) && (last s 0 =? close_brace)
  end.

(** [normalise_drop_path]: [parts[0]] raises [IndexError] on an empty
    list, which is [None]. *)
Definition normalise_drop_path (isspace : Z -> bool) (data : list Z)
  : option (list Z) :=
  let s := strip isspace data in
  let s := if braced s then removelast (tl s) else s in
  let parts := split isspace s in
  match parts with
  | [] => None
  | p :: _ => Some p
  end.

(** Strings of whitespace only, and strings without whitespace. *)
Definition all_space (isspace : Z -> bool) (s : list Z) : Prop :=
  Forall (fun ch => isspace ch = true) s.

Definition no_space (isspace : Z -> bool) (s : list Z) : Prop :=
  Forall (fun ch => isspace ch = false) s.

(** The whitespace of [str] among the code points below 256. *)
Definition latin1_space (ch : Z) : bool :=
  ((9 <=? ch) && (ch <=? 13)) || ((28 <=? ch) && (ch <=? 32))
  || (ch =? 133) || (ch =? 160).

(** ** The loops compute [encode_chunks] *)

Section Loops.

Lemma skipn_nth_error (A : Type) (l : list A) (i : nat) (x : A) :
  nth_error l i = Some x -> skipn i l = x :: skipn (S i) l.
Proof.
  revert i; induction l as [|y l IH]; intros [|i] H; simpl in *;
    try discriminate.
  - now inversion H.
  - now apply IH.
Qed.

Lemma nth_error_in_range (A : Type) (l : list A) (i : nat) :
  (i < length l)%nat -> exists x, nth_error l i = Some x.
Proof.
  intros H. destruct (nth_error l i) as [x|] eqn:E.
  - now exists x.
  - apply nth_error_None in E. lia.
Qed.

Lemma for_range_spec (k : nat) (pcm_s8 : list Z) :
  forall s : Loop,
    (idx s + k <= length pcm_s8)%nat ->
    for_range k pcm_s8 s =
    Some {| acc := pack_all (acc s)
                     (decisions (codec s) (firstn k (skipn (idx s) pcm_s8)));
            idx := idx s + k;
            codec := run (codec s) (firstn k (skipn (idx s) pcm_s8)) |}.
Proof.
  induction k as [|k IH]; intros [d i c] H; simpl in *.
  - now rewrite Nat.add_0_r.
  - destruct (nth_error_in_range _ pcm_s8 i) as [b Hb]; [lia|].
    rewrite Hb, (skipn_nth_error _ _ _ _ Hb).
    rewrite IH by (simpl; lia). simpl.
    now rewrite Nat.add_succ_r.
Qed.

Lemma while_loop_spec (pcm_s8 : list Z) (n : nat) :
  forall (m fuel i : nat) (out : list Z) (c : DFPWMCodec),
    n = (i + 8 * m)%nat ->
    (n <= length pcm_s8)%nat ->
    (m <= fuel)%nat ->
    while_loop fuel pcm_s8 n i out c =
    Some (out ++ fst (encode_chunks m c (skipn i pcm_s8)),
          snd (encode_chunks m c (skipn i pcm_s8))).
Proof.
  induction m as [|m IH]; intros fuel i out c Hn Hlen Hfuel.
  - destruct fuel; simpl;
      (replace (i <? n)%nat with false
         by (symmetry; apply Nat.ltb_ge; lia));
      now rewrite app_nil_r.
  - destruct fuel as [|fuel]; [lia|].
    cbn [while_loop].
    replace (i <? n)%nat with true by (symmetry; apply Nat.ltb_lt; lia).
    rewrite for_range_spec by (simpl; lia).
    cbn [acc idx codec].
    rewrite (IH fuel (i + 8)%nat) by lia.
    cbn [encode_chunks fst snd].
    rewrite skipn_skipn, (Nat.add_comm 8 i), <- app_assoc.
    reflexivity.
Qed.

Lemma chunked_length (l : nat) : (l - l mod 8 = 0 + 8 * (l / 8))%nat.
Proof. pose proof (Nat.div_mod_eq l 8). lia. Qed.

(** The method never raises, and its result is [encode_chunks] over the
    whole groups of the buffer. *)
Lemma compress_spec (c : DFPWMCodec) (pcm_s8 : list Z) :
  compress_pcm_s8_to_dfpwm c pcm_s8 =
  Some (encode_chunks (length pcm_s8 / 8) c pcm_s8).
Proof.
  unfold compress_pcm_s8_to_dfpwm.
  rewrite (while_loop_spec pcm_s8 _ (length pcm_s8 / 8)).
  - simpl. now destruct (encode_chunks _ c pcm_s8).
  - apply chunked_length.
  - lia.
  - pose proof (Nat.div_mod_eq (length pcm_s8) 8). lia.
Qed.

End Loops.

(** ** The context update *)

Section ContextUpdate.

Lemma post_init_configured (flag : bool) : configured (post_init flag).
Proof.
  destruct flag; [left|right]; repeat split.
Qed.

Lemma ctx_update_current (c : DFPWMCodec) (curbit : bool) :
  current_mode c -> current_mode (_ctx_update c curbit).
Proof. intros H; exact H. Qed.

Lemma ctx_update_configured (c : DFPWMCodec) (curbit : bool) :
  configured c -> configured (_ctx_update c curbit).
Proof. intros H; exact H. Qed.

(** In current mode the clamp is [max _ 8]. *)
Lemma clamp_current (c : DFPWMCodec) (nr : Z) :
  current_mode c -> Ctx.clamp c nr = Z.max nr 8.
Proof.
  intros (_ & _ & _ & _ & Hp). unfold Ctx.clamp. rewrite Hp. simpl.
  change (Z.shiftl 2 2) with 8.
  destruct (nr <? 8) eqn:E; [apply Z.ltb_lt in E | apply Z.ltb_ge in E]; lia.
Qed.

Lemma nresponse_unclamped_current (c : DFPWMCodec) (curbit : bool) :
  current_mode c ->
  Ctx.nresponse_unclamped c curbit =
  if Bool.eqb curbit (lastbit c)
  then (if response c =? 1023 then response c else response c + 1)
  else (if response c =? 0 then response c else response c - 1).
Proof.
  intros (_ & Hold & _ & _ & Hp).
  unfold Ctx.nresponse_unclamped, Ctx.response_adapted, Ctx.rtarget.
  rewrite Hold, Hp, Z.eqb_refl. simpl andb.
  change (Z.shiftl 1 10 - 1) with 1023.
  destruct (Bool.eqb curbit (lastbit c));
    [destruct (response c =? 1023) | destruct (response c =? 0)];
    reflexivity.
Qed.

(** The shift of the level update is a floor division. *)
Lemma level_shift_floor (c : DFPWMCodec) (curbit : bool) :
  1 <= RESP_PREC c ->
  Ctx.level_shifted c curbit =
  level c +
  (response c * (Ctx.target curbit - level c) + 2 ^ (RESP_PREC c - 1))
  / 2 ^ RESP_PREC c.
Proof.
  intros Hp. unfold Ctx.level_shifted.
  rewrite Z.shiftr_div_pow2 by lia.
  rewrite Z.shiftl_1_l. reflexivity.
Qed.

Lemma nlevel_bounds (c : DFPWMCodec) (curbit : bool) :
  reachable_inv c -> -128 <= Ctx.nlevel c curbit <= 127.
Proof.
  intros [Hm Hr Hl]. unfold Ctx.nlevel.
  rewrite level_shift_floor
    by (destruct Hm as [(_&_&_&_&E)|(_&_&_&_&E)]; rewrite E; lia).
  set (P := 2 ^ RESP_PREC c) in *.
  assert (HP : 2 ^ (RESP_PREC c - 1) * 2 = P /\ 0 < 2 ^ (RESP_PREC c - 1)).
  { unfold P; destruct Hm as [(_&_&_&_&E)|(_&_&_&_&E)]; rewrite E;
      simpl; lia. }
  set (H := 2 ^ (RESP_PREC c - 1)) in *.
  set (x := Ctx.target curbit - level c).
  set (q := (response c * x + H) / P).
  assert (Hq : q * P <= response c * x + H < (q + 1) * P).
  { unfold q. pose proof (Z.mul_div_le (response c * x + H) P).
    pose proof (Z.mul_succ_div_gt (response c * x + H) P). lia. }
  assert (Hx : (curbit = true /\ 0 <= x /\ x = 127 - level c) \/
               (curbit = false /\ x <= 0 /\ x = -128 - level c)).
  { unfold x, Ctx.target; destruct curbit; [left|right]; lia. }
  assert (Hqx : (0 <= x -> 0 <= q <= x) /\ (x <= 0 -> x <= q <= 0)) by nia.
  destruct ((level c + q =? level c) && negb (level c =? Ctx.target curbit))
    eqn:E.
  - apply andb_true_iff in E as [E1 E2].
    apply Z.eqb_eq in E1. apply negb_true_iff, Z.eqb_neq in E2.
    unfold Ctx.target in E2.
    destruct Hx as [(-> & ? & ?)|(-> & ? & ?)]; lia.
  - destruct Hx as [(_ & ? & ?)|(_ & ? & ?)]; lia.
Qed.

Lemma nresponse_bounds (c : DFPWMCodec) (curbit : bool) :
  reachable_inv c ->
  0 <= Ctx.nresponse c curbit <= 2 ^ RESP_PREC c - 1.
Proof.
  intros [Hm Hr Hl]. destruct Hm as [Hc|Hg].
  - unfold Ctx.nresponse.
    rewrite (clamp_current _ _ Hc), (nresponse_unclamped_current _ _ Hc).
    destruct Hc as (_&_&_&_&Hp). rewrite Hp in *.
    change (2 ^ 10 - 1) with 1023 in *.
    destruct (Bool.eqb curbit (lastbit c));
      [destruct (response c =? 1023) eqn:E
      |destruct (response c =? 0) eqn:E];
      try apply Z.eqb_neq in E; lia.
  - destruct Hg as (_ & Hold & Hi & Hd & Hp).
    unfold Ctx.nresponse, Ctx.clamp, Ctx.nresponse_unclamped,
      Ctx.response_adapted, Ctx.rtarget, Ctx.rdelta.
    rewrite Hold, Hi, Hd, Hp in *. change (8 >? 8) with false. cbv iota.
    change (Z.shiftl 1 8 - 1) with 255. change (2 ^ 8 - 1) with 255 in *.
    rewrite !Z.shiftr_div_pow2 by lia. change (2 ^ 8) with 256.
    destruct (Bool.eqb curbit (lastbit c)).
    + set (q := (7 * (255 - response c) + 128) / 256).
      assert (Hq : q * 256 <= 7 * (255 - response c) + 128 < (q + 1) * 256).
      { unfold q.
        pose proof (Z.mul_div_le (7 * (255 - response c) + 128) 256).
        pose proof (Z.mul_succ_div_gt (7 * (255 - response c) + 128) 256).
        lia. }
      destruct ((response c + q =? response c)
                && negb (response c =? 255)) eqn:E.
      * apply andb_true_iff in E as [E1 E2].
        apply negb_true_iff, Z.eqb_neq in E2. lia.
      * lia.
    + set (q := (20 * (0 - response c) + 128) / 256).
      assert (Hq : q * 256 <= 20 * (0 - response c) + 128 < (q + 1) * 256).
      { unfold q.
        pose proof (Z.mul_div_le (20 * (0 - response c) + 128) 256).
        pose proof (Z.mul_succ_div_gt (20 * (0 - response c) + 128) 256).
        lia. }
      destruct ((response c + q =? response c)
                && negb (response c =? 0)) eqn:E.
      * apply andb_true_iff in E as [E1 E2].
        apply negb_true_iff, Z.eqb_neq in E2. lia.
      * lia.
Qed.

Lemma post_init_inv (flag : bool) : reachable_inv (post_init flag).
Proof.
  split; [apply post_init_configured|destruct flag; simpl; lia|simpl; lia].
Qed.

Lemma ctx_update_inv (c : DFPWMCodec) (curbit : bool) :
  reachable_inv c -> reachable_inv (_ctx_update c curbit).
Proof.
  intros Hc. split.
  - apply ctx_update_configured, Hc.
  - exact (nresponse_bounds c curbit Hc).
  - exact (nlevel_bounds c curbit Hc).
Qed.

Lemma run_inv (l : list Z) :
  forall c, reachable_inv c -> reachable_inv (run c l).
Proof.
  induction l as [|b l IH]; intros c Hc; [exact Hc|].
  apply IH, ctx_update_inv, Hc.
Qed.

End ContextUpdate.

(** ** The encoder over chunks *)

Section Chunks.

Lemma firstn_plus (A : Type) (a b : nat) (l : list A) :
  firstn (a + b) l = firstn a l ++ firstn b (skipn a l).
Proof.
  revert l; induction a as [|a IH]; intros [|x l]; simpl;
    try reflexivity.
  - now rewrite firstn_nil.
  - now rewrite IH.
Qed.

Lemma run_app (c : DFPWMCodec) (l1 l2 : list Z) :
  run c (l1 ++ l2) = run (run c l1) l2.
Proof. apply fold_left_app. Qed.

Lemma decisions_length (l : list Z) :
  forall c, length (decisions c l) = length l.
Proof. induction l as [|b l IH]; intros c; simpl; [|rewrite IH]; reflexivity. Qed.

Lemma encode_chunks_length (m : nat) :
  forall c l, length (fst (encode_chunks m c l)) = m.
Proof.
  induction m as [|m IH]; intros c l; simpl; [|rewrite IH]; reflexivity.
Qed.

(** The codec a call leaves behind has seen the whole groups only. *)
Lemma encode_chunks_state (m : nat) :
  forall c l, snd (encode_chunks m c l) = run c (firstn (8 * m) l).
Proof.
  induction m as [|m IH]; intros c l.
  - reflexivity.
  - cbn [encode_chunks snd]. rewrite IH.
    replace (8 * S m)%nat with (8 + 8 * m)%nat by lia.
    now rewrite firstn_plus, run_app.
Qed.

(** Samples past the last whole group are never read. *)
Lemma encode_chunks_firstn (m : nat) :
  forall c l, encode_chunks m c (firstn (8 * m) l) = encode_chunks m c l.
Proof.
  induction m as [|m IH]; intros c l.
  - reflexivity.
  - cbn [encode_chunks].
    replace (8 * S m)%nat with (8 + 8 * m)%nat by lia.
    rewrite firstn_firstn, Nat.min_l by lia.
    rewrite skipn_firstn_comm.
    replace (8 + 8 * m - 8)%nat with (8 * m)%nat by lia.
    now rewrite IH.
Qed.

(** Rounds compose: [a + b] rounds are [a] rounds, then [b] rounds from
    the codec and the read position the first [a] left. *)
Lemma encode_chunks_plus (a b : nat) :
  forall c l,
    encode_chunks (a + b) c l =
    (fst (encode_chunks a c l)
       ++ fst (encode_chunks b (snd (encode_chunks a c l)) (skipn (8 * a) l)),
     snd (encode_chunks b (snd (encode_chunks a c l)) (skipn (8 * a) l))).
Proof.
  induction a as [|a IH]; intros c l.
  - simpl. now destruct (encode_chunks b c l).
  - cbn [Nat.add encode_chunks fst snd]. rewrite IH. cbn [fst snd].
    replace (8 * S a)%nat with (8 * a + 8)%nat by lia.
    now rewrite skipn_skipn.
Qed.

(** The [k]-th byte written is packed from the decisions on the [k]-th
    group, taken by the codec as the groups before it left it. *)
Lemma encode_chunks_nth (k : nat) :
  forall m c l,
    (k < m)%nat ->
    nth_error (fst (encode_chunks m c l)) k =
    Some (Z.land
            (pack_all 0 (decisions (run c (firstn (8 * k) l))
                                   (firstn 8 (skipn (8 * k) l))))
            255).
Proof.
  induction k as [|k IH]; intros [|m] c l Hk; try lia.
  - reflexivity.
  - cbn [encode_chunks fst nth_error].
    rewrite IH by lia.
    replace (8 * S k)%nat with (8 + 8 * k)%nat by lia.
    rewrite firstn_plus, run_app, skipn_skipn.
    now rewrite (Nat.add_comm (8 * k) 8).
Qed.

(** The encoder reads its input through [inlevel_of] only. *)
Lemma run_inlevel (l1 : list Z) :
  forall l2 c,
    map inlevel_of l1 = map inlevel_of l2 ->
    run c l1 = run c l2 /\ decisions c l1 = decisions c l2.
Proof.
  induction l1 as [|b1 l1 IH]; intros [|b2 l2] c H; simpl in H;
    try discriminate.
  - split; reflexivity.
  - injection H as Hb Hl.
    destruct (IH l2 (sample_step c b1) Hl) as [Hr Hd].
    assert (Hs : sample_step c b2 = sample_step c b1)
      by (unfold sample_step; now rewrite Hb).
    unfold run in *. simpl. rewrite Hs, <- Hb.
    split; [exact Hr | now rewrite Hd].
Qed.

Lemma encode_chunks_inlevel (m : nat) :
  forall c l1 l2,
    map inlevel_of l1 = map inlevel_of l2 ->
    encode_chunks m c l1 = encode_chunks m c l2.
Proof.
  induction m as [|m IH]; intros c l1 l2 H; [reflexivity|].
  cbn [encode_chunks].
  assert (H8 : map inlevel_of (firstn 8 l1) = map inlevel_of (firstn 8 l2))
    by now rewrite <- !firstn_map, H.
  assert (Hs : map inlevel_of (skipn 8 l1) = map inlevel_of (skipn 8 l2))
    by now rewrite <- !skipn_map, H.
  destruct (run_inlevel _ _ c H8) as [-> ->].
  now rewrite (IH _ _ _ Hs).
Qed.

Lemma inlevel_of_byte (b : Z) :
  0 <= b <= 255 ->
  -128 <= inlevel_of b <= 127 /\
  (128 <= b -> inlevel_of b = b - 256) /\
  (b <= 127 -> inlevel_of b = b) /\
  inlevel_of (inlevel_of b) = inlevel_of b.
Proof.
  intros Hb. unfold inlevel_of.
  destruct (b >? 127) eqn:E.
  - assert (127 < b) by lia.
    replace (b - 256 >? 127) with false by lia. lia.
  - rewrite E. lia.
Qed.

End Chunks.

(** ** Packing *)

Section Packing.

(** On a byte in progress the source's [+] is the specification's [|],
    and the byte stays a byte, so the final [& 0xFF] changes nothing. *)
Lemma pack_spec_pack (d : Z) (bit : bool) :
  0 <= d <= 255 ->
  pack d bit = spec_pack d bit /\ 0 <= pack d bit <= 255.
Proof.
  intros Hd.
  assert (Hn : exists n, (n < 256)%nat /\ d = Z.of_nat n)
    by (exists (Z.to_nat d); lia).
  destruct Hn as (n & Hn & ->). clear Hd.
  do 256 (destruct n as [|n];
          [destruct bit; vm_compute; repeat split; discriminate|]).
  lia.
Qed.

Lemma pack_all_spec (bits : list bool) :
  forall d, 0 <= d <= 255 ->
            pack_all d bits = spec_pack_all d bits /\
            0 <= pack_all d bits <= 255.
Proof.
  induction bits as [|b bits IH]; intros d Hd; simpl.
  - split; [reflexivity|exact Hd].
  - destruct (pack_spec_pack d b Hd) as [E Hr].
    unfold pack_all, spec_pack_all in *. simpl. rewrite <- E.
    apply IH, Hr.
Qed.

Lemma land_255_byte (d : Z) : 0 <= d <= 255 -> Z.land d 255 = d.
Proof.
  intros Hd. change 255 with (Z.ones 8).
  rewrite Z.land_ones by lia. apply Z.mod_small.
  change (2 ^ 8) with 256. lia.
Qed.

(** Eight bits through the packing rule: bit [i] of the byte is the
    [i]-th bit packed. *)
Lemma spec_pack_all_testbit (bits : list bool) :
  length bits = 8%nat ->
  forall i, (i < 8)%nat ->
            Z.testbit (spec_pack_all 0 bits) (Z.of_nat i) = nth i bits false.
Proof.
  intros Hlen.
  do 8 (destruct bits as [|? bits]; [discriminate Hlen|]).
  destruct bits; [|discriminate Hlen]. clear Hlen.
  intros i Hi.
  do 8 (destruct i as [|i];
        [repeat match goal with x : bool |- _ => destruct x end;
         reflexivity|]).
  lia.
Qed.

End Packing.

(** ** Constant inputs *)

Section Constant.

(** A sample that every reachable codec decides the same way. *)
Variable s : Z.
Variable bit : bool.
Hypothesis decided :
  forall c, reachable_inv c -> curbit_of c s = bit.

Lemma decisions_constant (l : list Z) :
  forall c,
    reachable_inv c ->
    Forall (fun b => inlevel_of b = s) l ->
    decisions c l = repeat bit (length l).
Proof.
  induction l as [|b l IH]; intros c Hc Hl; [reflexivity|].
  pose proof (Forall_inv Hl) as Hb. simpl in Hb.
  apply Forall_inv_tail in Hl. simpl.
  rewrite Hb, (decided c Hc). f_equal.
  apply IH; [|exact Hl].
  unfold sample_step. now apply ctx_update_inv.
Qed.

Lemma encode_chunks_constant (m : nat) :
  forall c l,
    reachable_inv c ->
    Forall (fun b => inlevel_of b = s) l ->
    (8 * m <= length l)%nat ->
    fst (encode_chunks m c l) =
    repeat (Z.land (pack_all 0 (repeat bit 8)) 255) m.
Proof.
  induction m as [|m IH]; intros c l Hc Hl Hlen; [reflexivity|].
  rewrite <- (firstn_skipn 8 l) in Hl. apply Forall_app in Hl as [H1 H2].
  cbn [encode_chunks fst repeat].
  rewrite (decisions_constant _ c Hc H1), firstn_length_le by lia.
  f_equal. apply IH.
  - now apply run_inv.
  - exact H2.
  - rewrite length_skipn. lia.
Qed.

End Constant.

Section Extremes.

Lemma decided_high (c : DFPWMCodec) :
  reachable_inv c -> curbit_of c 127 = true.
Proof.
  intros [_ _ Hl]. unfold curbit_of.
  destruct (127 >? level c) eqn:E; [reflexivity|].
  assert (level c = 127) by lia.
  replace (level c) with 127. reflexivity.
Qed.

Lemma decided_low (c : DFPWMCodec) :
  reachable_inv c -> curbit_of c (-128) = false.
Proof.
  intros [_ _ Hl]. unfold curbit_of.
  replace (-128 >? level c) with false by lia.
  destruct (-128 =? level c) eqn:E; [|reflexivity].
  replace (level c =? 127) with false by lia. reflexivity.
Qed.

Lemma Forall_repeat (A : Type) (P : A -> Prop) (x : A) (n : nat) :
  P x -> Forall P (repeat x n).
Proof. intros H. induction n; simpl; constructor; assumption. Qed.

(** A buffer holding one value, from a constructed codec: every byte
    written is the byte of that sample's decision. *)
Lemma constant_bytes (flag : bool) (b : Z) (bit : bool) (n : nat) :
  (forall c, reachable_inv c -> curbit_of c (inlevel_of b) = bit) ->
  exists c',
    compress_pcm_s8_to_dfpwm (post_init flag) (repeat b n) =
    Some (repeat (if bit then 255 else 0) (n / 8), c').
Proof.
  intros Hd. rewrite compress_spec, repeat_length.
  exists (snd (encode_chunks (n / 8) (post_init flag) (repeat b n))).
  rewrite (surjective_pairing (encode_chunks _ _ _)) at 1.
  rewrite (encode_chunks_constant (inlevel_of b) bit Hd).
  - now destruct bit.
  - apply post_init_inv.
  - now apply Forall_repeat.
  - rewrite repeat_length. pose proof (Nat.div_mod_eq n 8). lia.
Qed.

End Extremes.

(** ** Properties of the context update *)

Section UpdateProperties.

(** Claim C1 does not hold as written: after one update of a fresh
    current-mode codec the response is 8, and the next update with the
    same bit leaves 9 in [nresponse] before the floor clamp, which is
    not the old response. *)
Lemma current_mode_response_not_kept :
  current_mode (_ctx_update (post_init true) false) /\
  response (_ctx_update (post_init true) false) = 8 /\
  Ctx.nresponse_unclamped (_ctx_update (post_init true) false) false = 9 /\
  Ctx.nresponse_unclamped (_ctx_update (post_init true) false) false
    <> response (_ctx_update (post_init true) false) /\
  response (_ctx_update (_ctx_update (post_init true) false) false) = 9.
Proof.
  repeat split; vm_compute; discriminate.
Qed.

(** Claim C1, amended: in current mode the adaptation formula is skipped
    (the adapted value is the old response), but the zero-progress nudge
    still runs before the floor clamp: [nresponse] is the response plus
    one when the bit repeats the last bit and the response is not 1023,
    the response minus one when the bit differs and the response is not
    0, and the old response otherwise; the committed response is that
    value clamped to at least 8. *)
Theorem current_mode_response_nudged (c : DFPWMCodec) (curbit : bool) :
  current_mode c ->
  Ctx.response_adapted c curbit = response c /\
  Ctx.nresponse_unclamped c curbit =
    (if Bool.eqb curbit (lastbit c)
     then (if response c =? 1023 then response c else response c + 1)
     else (if response c =? 0 then response c else response c - 1)) /\
  response (_ctx_update c curbit) =
    Z.max (Ctx.nresponse_unclamped c curbit) 8.
Proof.
  intros Hc. repeat split.
  - destruct Hc as (_ & Hold & _). unfold Ctx.response_adapted.
    now rewrite Hold.
  - now apply nresponse_unclamped_current.
  - simpl. unfold Ctx.nresponse. now apply clamp_current.
Qed.

Lemma current_mode_response_nudged_witness :
  current_mode (_ctx_update (post_init true) false) /\
  Ctx.nresponse_unclamped (_ctx_update (post_init true) false) true = 7 /\
  response (_ctx_update (_ctx_update (post_init true) false) true) = 8.
Proof.
  assert (H : current_mode (_ctx_update (post_init true) false))
    by (repeat split; reflexivity).
  destruct (current_mode_response_nudged _ true H) as (_ & E1 & E2).
  split; [exact H|]. split.
  - rewrite E1. reflexivity.
  - rewrite E2, E1. reflexivity.
Defined.

(** Claim C4: the new level is the old level plus the arithmetic right
    shift of [response*(target-level) + 2^(precision-1)] by [precision];
    the shift is the floor division by [2^precision] (its result [q] has
    [q * 2^precision <= operand < (q+1) * 2^precision], also for a
    negative operand); when the result equals the old level and the
    level is not the target, it is nudged by +1 for a true bit and by -1
    for a false bit. *)
Theorem level_update_floor_shift (c : DFPWMCodec) (curbit : bool) :
  1 <= RESP_PREC c ->
  let target := if curbit then 127 else -128 in
  let operand :=
    response c * (target - level c) + 2 ^ (RESP_PREC c - 1) in
  let q := Z.shiftr operand (RESP_PREC c) in
  q = operand / 2 ^ RESP_PREC c /\
  q * 2 ^ RESP_PREC c <= operand < (q + 1) * 2 ^ RESP_PREC c /\
  level (_ctx_update c curbit) =
    (if (level c + q =? level c) && negb (level c =? target)
     then level c + q + (if curbit then 1 else -1)
     else level c + q).
Proof.
  intros Hp target operand q.
  assert (Hq : q = operand / 2 ^ RESP_PREC c)
    by (unfold q; apply Z.shiftr_div_pow2; lia).
  assert (HP : 0 < 2 ^ RESP_PREC c) by (apply Z.pow_pos_nonneg; lia).
  split; [exact Hq|]. split.
  - rewrite Hq.
    pose proof (Z.mul_div_le operand _ HP).
    pose proof (Z.mul_succ_div_gt operand _ HP). lia.
  - simpl. unfold Ctx.nlevel, Ctx.level_shifted.
    rewrite Z.shiftl_1_l. reflexivity.
Qed.

(** At response 8 and level 100, a false bit gives the operand -1312:
    the shift by 10 yields -2 and the level 98, where a truncating
    division would yield -1. *)
Lemma level_update_floor_shift_witness :
  1 <= RESP_PREC (mkCodec true false 1 1 10 8 100 true) /\
  Z.shiftr (8 * (-128 - 100) + 2 ^ 9) 10 = -2 /\
  Z.quot (8 * (-128 - 100) + 2 ^ 9) (2 ^ 10) = -1 /\
  level (_ctx_update (mkCodec true false 1 1 10 8 100 true) false) = 98.
Proof.
  assert (H : 1 <= RESP_PREC (mkCodec true false 1 1 10 8 100 true))
    by (simpl; lia).
  destruct (level_update_floor_shift _ false H) as (E1 & _ & E3).
  split; [exact H|]. split; [reflexivity|]. split; [reflexivity|].
  rewrite E3. reflexivity.
Defined.

Lemma response_floor_step (c : DFPWMCodec) (curbit : bool) :
  current_mode c -> 8 <= response (_ctx_update c curbit).
Proof.
  intros Hc. simpl. unfold Ctx.nresponse.
  rewrite (clamp_current _ _ Hc). lia.
Qed.

Lemma response_floor_bits (bits : list bool) :
  forall c, current_mode c -> 8 <= response c ->
            8 <= response (fold_left _ctx_update bits c).
Proof.
  induction bits as [|b bits IH]; intros c Hc Hr; [exact Hr|].
  simpl. apply IH; [exact Hc|now apply response_floor_step].
Qed.

Lemma response_floor_run (l : list Z) :
  forall c, current_mode c -> 8 <= response c -> 8 <= response (run c l).
Proof.
  induction l as [|b l IH]; intros c Hc Hr; [exact Hr|].
  apply IH; [exact Hc|now apply response_floor_step].
Qed.

(** Claim C5: in current mode (precision 10) the response is at least 8
    after the first context update, whatever it was before, and after
    every later update, be it driven by samples or by any sequence of
    bits; the update also keeps the codec in current mode. *)
Theorem response_floor_current
    (c : DFPWMCodec) (curbit : bool) (l : list Z) (bits : list bool) :
  current_mode c ->
  8 <= response (_ctx_update c curbit) /\
  current_mode (_ctx_update c curbit) /\
  8 <= response (run (_ctx_update c curbit) l) /\
  8 <= response (fold_left _ctx_update bits (_ctx_update c curbit)).
Proof.
  intros Hc.
  pose proof (response_floor_step c curbit Hc) as H1.
  pose proof (ctx_update_current c curbit Hc) as H2.
  repeat split; try apply Hc; try exact H1.
  - now apply response_floor_run.
  - now apply response_floor_bits.
Qed.

Lemma response_floor_current_witness :
  current_mode (post_init true) /\
  response (post_init true) = 0 /\
  8 <= response (_ctx_update (post_init true) true) /\
  8 <= response (run (_ctx_update (post_init true) true) [200; 3; 17]).
Proof.
  assert (H : current_mode (post_init true)) by (repeat split; reflexivity).
  destruct (response_floor_current _ true [200; 3; 17] [] H)
    as (H1 & _ & H3 & _).
  split; [exact H|]. split; [reflexivity|]. split; assumption.
Defined.

Lemma bits_inv (bits : list bool) :
  forall c, reachable_inv c -> reachable_inv (fold_left _ctx_update bits c).
Proof.
  induction bits as [|b bits IH]; intros c Hc; [exact Hc|].
  simpl. now apply IH, ctx_update_inv.
Qed.

(** Claim C9: from a fresh codec of either mode, the level is within
    [-128, 127] after every per-sample update, for every input sequence
    (and for every sequence of decision bits). *)
Theorem level_stays_signed_byte (flag : bool) :
  (forall l : list Z, -128 <= level (run (post_init flag) l) <= 127) /\
  (forall bits : list bool,
      -128 <= level (fold_left _ctx_update bits (post_init flag)) <= 127).
Proof.
  split; intros l.
  - apply inv_level, run_inv, post_init_inv.
  - apply inv_level, bits_inv, post_init_inv.
Qed.

End UpdateProperties.

(** ** Properties of the encoder *)

Section EncoderProperties.



(** Claim C2: on every buffer the call returns (it raises nothing), with
    [len // 8] bytes; the bytes and the codec it leaves are those of the
    call on the whole groups alone, so the [len % 8] trailing samples
    are read by no call; fewer than eight samples give no byte and leave
    the codec as it was. *)
Theorem encode_total_length (c : DFPWMCodec) (pcm_s8 : list Z) :
  exists out c',
    compress_pcm_s8_to_dfpwm c pcm_s8 = Some (out, c') /\
    length out = (length pcm_s8 / 8)%nat /\
    compress_pcm_s8_to_dfpwm c (firstn (8 * (length pcm_s8 / 8)) pcm_s8) =
      Some (out, c') /\
    c' = run c (firstn (8 * (length pcm_s8 / 8)) pcm_s8) /\
    ((length pcm_s8 < 8)%nat -> out = [] /\ c' = c).
Proof.
  set (m := (length pcm_s8 / 8)%nat).
  assert (Hm : (8 * m <= length pcm_s8)%nat)
    by (unfold m; pose proof (Nat.div_mod_eq (length pcm_s8) 8); lia).
  exists (fst (encode_chunks m c pcm_s8)), (snd (encode_chunks m c pcm_s8)).
  rewrite <- surjective_pairing. repeat split.
  - apply compress_spec.
  - apply encode_chunks_length.
  - rewrite compress_spec, firstn_length_le by exact Hm.
    rewrite Nat.mul_comm, Nat.div_mul by lia.
    rewrite Nat.mul_comm. now rewrite encode_chunks_firstn.
  - apply encode_chunks_state.
  - replace m with 0%nat by (unfold m; symmetry; apply Nat.div_small; lia).
    reflexivity.
  - replace m with 0%nat by (unfold m; symmetry; apply Nat.div_small; lia).
    reflexivity.
Qed.

Lemma encode_total_length_witness :
  (length [1; 2; 3] < 8)%nat /\
  compress_pcm_s8_to_dfpwm (post_init true) [1; 2; 3] =
  Some ([], post_init true).
Proof.
  split; [simpl; lia|].
  destruct (encode_total_length (post_init true) [1; 2; 3])
    as (out & c' & E & _ & _ & _ & H).
  destruct H as [-> ->]; [simpl; lia|]. exact E.
Defined.

(** Claim C6: sixteen samples in one call give the bytes and the final
    codec of the first eight followed by the next eight on the codec the
    first call left; and for the input [ramp ++ ramp] this is not what
    two freshly constructed codecs give, one per half. *)
Theorem continuity_across_calls :
  (forall (c : DFPWMCodec) (l : list Z),
      length l = 16%nat ->
      exists o1 c1 o2 c2,
        compress_pcm_s8_to_dfpwm c (firstn 8 l) = Some (o1, c1) /\
        compress_pcm_s8_to_dfpwm c1 (skipn 8 l) = Some (o2, c2) /\
        compress_pcm_s8_to_dfpwm c l = Some (o1 ++ o2, c2)) /\
  (exists l o c' o1 c1 o2 c2,
      length l = 16%nat /\
      compress_pcm_s8_to_dfpwm (post_init true) l = Some (o, c') /\
      compress_pcm_s8_to_dfpwm (post_init true) (firstn 8 l)
        = Some (o1, c1) /\
      compress_pcm_s8_to_dfpwm (post_init true) (skipn 8 l)
        = Some (o2, c2) /\
      o <> o1 ++ o2).
Proof.
  split.
  - intros c l Hl.
    set (r1 := encode_chunks 1 c l).
    set (r2 := encode_chunks 1 (snd r1) (skipn 8 l)).
    exists (fst r1), (snd r1), (fst r2), (snd r2).
    rewrite !compress_spec, firstn_length_le, length_skipn, Hl by lia.
    change (16 / 8)%nat with (1 + 1)%nat.
    change ((16 - 8) / 8)%nat with 1%nat. change (8 / 8)%nat with 1%nat.
    rewrite encode_chunks_plus.
    change (firstn 8 l) with (firstn (8 * 1) l).
    rewrite encode_chunks_firstn.
    repeat split; now rewrite <- surjective_pairing.
  - exists (ramp ++ ramp). eexists _, _, _, _, _, _.
    split; [reflexivity|].
    split; [vm_compute; reflexivity|].
    split; [vm_compute; reflexivity|].
    split; [vm_compute; reflexivity|].
    discriminate.
Qed.

Lemma continuity_across_calls_witness :
  length (ramp ++ ramp) = 16%nat /\
  compress_pcm_s8_to_dfpwm (post_init true) (ramp ++ ramp) =
  match compress_pcm_s8_to_dfpwm (post_init true) ramp with
  | Some (o1, c1) =>
      match compress_pcm_s8_to_dfpwm c1 ramp with
      | Some (o2, c2) => Some (o1 ++ o2, c2)
      | None => None
      end
  | None => None
  end.
Proof.
  split; [reflexivity|].
  destruct (proj1 continuity_across_calls (post_init true) (ramp ++ ramp)
              eq_refl) as (o1 & c1 & o2 & c2 & E1 & E2 & E).
  change (firstn 8 (ramp ++ ramp)) with ramp in E1.
  change (skipn 8 (ramp ++ ramp)) with ramp in E2.
  rewrite E1, E2. exact E.
Defined.

End EncoderProperties.

Section OutputProperties.

(** Claim C7: the byte written for the [k]-th group of eight samples is
    the result of [acc = (acc >> 1) | (0x80 if bit else 0)] applied from
    0 to the eight decision bits of that group in order (the source's
    [+] and its final [& 0xFF] give the same value), so bit [i] of the
    byte is the [i]-th decision of the group: the first one in bit 0,
    the last one in bit 7. *)
Theorem group_bit_packing (c : DFPWMCodec) (pcm_s8 : list Z) (k : nat) :
  (k < length pcm_s8 / 8)%nat ->
  let bits := decisions (run c (firstn (8 * k) pcm_s8))
                        (firstn 8 (skipn (8 * k) pcm_s8)) in
  exists out c',
    compress_pcm_s8_to_dfpwm c pcm_s8 = Some (out, c') /\
    length bits = 8%nat /\
    nth_error out k = Some (spec_pack_all 0 bits) /\
    spec_pack_all 0 bits = Z.land (pack_all 0 bits) 255 /\
    forall i, (i < 8)%nat ->
              Z.testbit (spec_pack_all 0 bits) (Z.of_nat i) =
              nth i bits false.
Proof.
  intros Hk bits.
  assert (Hlen : length bits = 8%nat).
  { unfold bits. rewrite decisions_length, firstn_length_le; [reflexivity|].
    rewrite length_skipn.
    pose proof (Nat.div_mod_eq (length pcm_s8) 8). lia. }
  assert (Hp : 0 <= 0 <= 255) by lia.
  destruct (pack_all_spec bits 0 Hp) as [E Hr].
  assert (Hb : Z.land (pack_all 0 bits) 255 = spec_pack_all 0 bits)
    by (rewrite land_255_byte by exact Hr; exact E).
  set (r := encode_chunks (length pcm_s8 / 8) c pcm_s8).
  exists (fst r), (snd r). rewrite <- surjective_pairing.
  split; [apply compress_spec|]. split; [exact Hlen|].
  split; [|split].
  - unfold r. rewrite encode_chunks_nth by exact Hk.
    fold bits. now rewrite Hb.
  - now rewrite Hb.
  - now apply spec_pack_all_testbit.
Qed.

Lemma group_bit_packing_witness :
  (1 < length (ramp ++ [0; 0; 0; 0; 10; 1; 1; 1]%Z) / 8)%nat /\
  decisions (run (post_init true) ramp) [0; 0; 0; 0; 10; 1; 1; 1] =
    [false; false; false; false; true; false; false; true] /\
  exists out c',
    compress_pcm_s8_to_dfpwm (post_init true)
                             (ramp ++ [0; 0; 0; 0; 10; 1; 1; 1]) =
    Some (out, c') /\
    nth_error out 1 = Some 144 /\
    Z.testbit 144 0 = false /\ Z.testbit 144 4 = true /\
    Z.testbit 144 7 = true.
Proof.
  assert (H : (1 < length (ramp ++ [0; 0; 0; 0; 10; 1; 1; 1]%Z) / 8)%nat)
    by (vm_compute; lia).
  split; [exact H|]. split; [reflexivity|].
  destruct (group_bit_packing (post_init true) _ 1 H)
    as (out & c' & E & _ & En & _ & _).
  exists out, c'. split; [exact E|]. split; [exact En|].
  repeat split; reflexivity.
Defined.

(** Claim C8: a constant input of 127 from a fresh codec of either mode
    settles on output bytes 0xFF, and a constant input of -128 (the byte
    0x80, or the integer -128) on 0x00: there is an index [N] from which
    every byte written has that value.  The index is 0: the transient
    of the predictor never shows in the decisions. *)
Theorem extremes_converge (flag : bool) :
  exists N : nat,
    N = 0%nat /\
    forall n i : nat,
      (N <= i)%nat -> (i < n / 8)%nat ->
      (exists out c',
          compress_pcm_s8_to_dfpwm (post_init flag) (repeat 127 n) =
          Some (out, c') /\ nth_error out i = Some 255) /\
      (exists out c',
          compress_pcm_s8_to_dfpwm (post_init flag) (repeat 128 n) =
          Some (out, c') /\ nth_error out i = Some 0) /\
      (exists out c',
          compress_pcm_s8_to_dfpwm (post_init flag) (repeat (-128) n) =
          Some (out, c') /\ nth_error out i = Some 0).
Proof.
  exists 0%nat. split; [reflexivity|]. intros n i _ Hi.
  split; [|split].
  - destruct (constant_bytes flag 127 true n decided_high) as [c' E].
    exists (repeat 255 (n / 8)), c'. split; [exact E|].
    now apply nth_error_repeat.
  - destruct (constant_bytes flag 128 false n decided_low) as [c' E].
    exists (repeat 0 (n / 8)), c'. split; [exact E|].
    now apply nth_error_repeat.
  - destruct (constant_bytes flag (-128) false n decided_low) as [c' E].
    exists (repeat 0 (n / 8)), c'. split; [exact E|].
    now apply nth_error_repeat.
Qed.

Lemma extremes_converge_witness :
  (0 <= 1)%nat /\ (1 < 16 / 8)%nat /\
  (exists out c',
      compress_pcm_s8_to_dfpwm (post_init true) (repeat 127 16) =
      Some (out, c') /\ nth_error out 1 = Some 255) /\
  (exists out c',
      compress_pcm_s8_to_dfpwm (post_init true) (repeat 128 16) =
      Some (out, c') /\ nth_error out 1 = Some 0).
Proof.
  assert (H0 : (0 <= 1)%nat) by lia.
  assert (H1 : (1 < 16 / 8)%nat) by (vm_compute; lia).
  destruct (extremes_converge true) as (N & -> & H).
  destruct (H 16%nat 1%nat H0 H1) as (Hhigh & Hlow & _).
  repeat split; assumption.
Defined.

(** The byte conversion of the source is the two's-complement reading. *)
Lemma inlevel_of_signed (b : Z) : inlevel_of b = signed_of_byte b.
Proof.
  unfold inlevel_of, signed_of_byte.
  destruct (b >? 127) eqn:E1; destruct (128 <=? b) eqn:E2; lia.
Qed.

(** A group of bytes goes through the loop as its signed samples go
    through the per-sample algorithm. *)
Lemma signed_group_bytes (l : list Z) :
  forall c d,
    signed_group c d (map signed_of_byte l) =
    (pack_all d (decisions c l), run c l).
Proof.
  induction l as [|b l IH]; intros c d; [reflexivity|].
  cbn [map signed_group]. rewrite IH, <- inlevel_of_signed. reflexivity.
Qed.

Lemma signed_encode_bytes (m : nat) :
  forall c l,
    signed_encode m c (map signed_of_byte l) = encode_chunks m c l.
Proof.
  induction m as [|m IH]; intros c l; [reflexivity|].
  cbn [signed_encode encode_chunks].
  rewrite firstn_map, skipn_map, signed_group_bytes. cbn [fst snd].
  now rewrite IH.
Qed.

(** Claim C10: every byte string is valid input.  A byte [b] of
    128..255 is read as [b - 256] and a byte of 0..127 as itself, always
    a sample of [-128, 127]; the call returns, and what it returns, bytes
    and codec, is the encoding of the sequence of those signed samples by
    the per-sample algorithm; in particular bit 0 of the first byte
    written is the decision on [b - 256] for a first byte [b] of 128 or
    more. *)
Theorem bytes_read_as_signed (c : DFPWMCodec) (pcm_s8 : list Z) :
  Forall (fun b => 0 <= b <= 255) pcm_s8 ->
  Forall (fun b => -128 <= inlevel_of b <= 127 /\
                   (128 <= b -> inlevel_of b = b - 256) /\
                   (b <= 127 -> inlevel_of b = b)) pcm_s8 /\
  (exists r, compress_pcm_s8_to_dfpwm c pcm_s8 = Some r) /\
  compress_pcm_s8_to_dfpwm c pcm_s8 =
    compress_pcm_s8_to_dfpwm c (map inlevel_of pcm_s8) /\
  compress_pcm_s8_to_dfpwm c pcm_s8 =
    Some (encode_signed c
            (map (fun b => if 128 <=? b then b - 256 else b) pcm_s8)) /\
  (forall b rest,
      pcm_s8 = b :: rest -> (8 <= length pcm_s8)%nat ->
      exists d out c',
        compress_pcm_s8_to_dfpwm c pcm_s8 = Some (d :: out, c') /\
        Z.testbit d 0 =
          (if 128 <=? b
           then (b - 256 >? level c)
                || ((b - 256 =? level c) && (level c =? 127))
           else (b >? level c) || ((b =? level c) && (level c =? 127)))).
Proof.
  intros Hb. split; [|split; [|split; [|split]]].
  - eapply Forall_impl; [|exact Hb].
    intros b H. destruct (inlevel_of_byte b H) as (H1 & H2 & H3 & _).
    auto.
  - eexists. apply compress_spec.
  - rewrite !compress_spec, length_map. f_equal.
    apply encode_chunks_inlevel.
    rewrite map_map. apply map_ext_in. intros b Hin.
    rewrite Forall_forall in Hb.
    symmetry. apply inlevel_of_byte, Hb, Hin.
  - rewrite compress_spec. unfold encode_signed. rewrite length_map.
    change (fun b => if 128 <=? b then b - 256 else b) with signed_of_byte.
    now rewrite signed_encode_bytes.
  - intros b rest -> Hlen. rewrite compress_spec.
    destruct (length (b :: rest) / 8)%nat as [|m] eqn:Em.
    { assert (8 * 1 <= length (b :: rest))%nat by lia.
      pose proof (Nat.div_le_lower_bound (length (b :: rest)) 8 1).
      lia. }
    cbn [encode_chunks].
    set (bits := decisions c (firstn 8 (b :: rest))).
    eexists _, _, _. split; [reflexivity|].
    assert (Hbits : length bits = 8%nat)
      by (unfold bits; rewrite decisions_length, firstn_length_le; lia).
    assert (Hp : 0 <= 0 <= 255) by lia.
    destruct (pack_all_spec bits 0 Hp) as [E Hr].
    rewrite land_255_byte by exact Hr. rewrite E.
    change 0 with (Z.of_nat 0) at 2.
    rewrite (spec_pack_all_testbit bits Hbits 0) by lia.
    unfold bits. cbn [firstn decisions nth].
    unfold curbit_of, inlevel_of.
    destruct (b >? 127) eqn:E1; destruct (128 <=? b) eqn:E2;
      try lia; reflexivity.
Qed.

Lemma bytes_read_as_signed_witness :
  Forall (fun b => 0 <= b <= 255) [255; 128; 127; 0; 200; 1; 129; 64] /\
  compress_pcm_s8_to_dfpwm (post_init true)
                           [255; 128; 127; 0; 200; 1; 129; 64] =
  Some (encode_signed (post_init true)
                      [-1; -128; 127; 0; -56; 1; -127; 64]) /\
  fst (encode_signed (post_init true)
                     [-1; -128; 127; 0; -56; 1; -127; 64]) = [172].
Proof.
  assert (H : Forall (fun b => 0 <= b <= 255)
                     [255; 128; 127; 0; 200; 1; 129; 64])
    by (repeat constructor; lia).
  split; [exact H|].
  destruct (bytes_read_as_signed (post_init true) _ H)
    as (_ & _ & _ & E & _).
  split; [exact E|]. reflexivity.
Defined.

End OutputProperties.

(** ** Further properties of the codec *)

Section CodecInvariants.

(** What one update does to the level, for a codec within the invariant:
    the shift moves it toward the target without passing it, and the nudge
    makes the move strict until the target is reached. *)
Lemma nlevel_progress (c : DFPWMCodec) (curbit : bool) :
  reachable_inv c ->
  (curbit = true ->
   level c <= Ctx.nlevel c curbit <= 127 /\
   (level c < 127 -> level c < Ctx.nlevel c curbit)) /\
  (curbit = false ->
   -128 <= Ctx.nlevel c curbit <= level c /\
   (-128 < level c -> Ctx.nlevel c curbit < level c)).
Proof.
  intros [Hm Hr Hl]. unfold Ctx.nlevel.
  rewrite level_shift_floor
    by (destruct Hm as [(_&_&_&_&E)|(_&_&_&_&E)]; rewrite E; lia).
  set (P := 2 ^ RESP_PREC c) in *.
  assert (HP : 2 ^ (RESP_PREC c - 1) * 2 = P /\ 0 < 2 ^ (RESP_PREC c - 1)).
  { unfold P; destruct Hm as [(_&_&_&_&E)|(_&_&_&_&E)]; rewrite E;
      simpl; lia. }
  set (H := 2 ^ (RESP_PREC c - 1)) in *.
  set (x := Ctx.target curbit - level c).
  set (q := (response c * x + H) / P).
  assert (Hq : q * P <= response c * x + H < (q + 1) * P).
  { unfold q. pose proof (Z.mul_div_le (response c * x + H) P).
    pose proof (Z.mul_succ_div_gt (response c * x + H) P). lia. }
  assert (Hqx : (0 <= x -> 0 <= q <= x) /\ (x <= 0 -> x <= q <= 0)) by nia.
  assert (Hx : x = Ctx.target curbit - level c) by reflexivity.
  clearbody x q.
  destruct curbit; unfold Ctx.target in *; split; try discriminate;
    intros _.
  - destruct ((level c + q =? level c) && negb (level c =? 127)) eqn:E.
    + apply andb_true_iff in E as [E1 E2].
      apply Z.eqb_eq in E1. apply negb_true_iff, Z.eqb_neq in E2. lia.
    + apply andb_false_iff in E as [E|E].
      * apply Z.eqb_neq in E. lia.
      * apply negb_false_iff, Z.eqb_eq in E. lia.
  - destruct ((level c + q =? level c) && negb (level c =? -128)) eqn:E.
    + apply andb_true_iff in E as [E1 E2].
      apply Z.eqb_eq in E1. apply negb_true_iff, Z.eqb_neq in E2. lia.
    + apply andb_false_iff in E as [E|E].
      * apply Z.eqb_neq in E. lia.
      * apply negb_false_iff, Z.eqb_eq in E. lia.
Qed.

Lemma land_255_range (x : Z) : 0 <= Z.land x 255 <= 255.
Proof.
  assert (E : Z.land x 255 = x mod 256)
    by (change 255 with (Z.ones 8); now rewrite Z.land_ones by lia).
  rewrite E. pose proof (Z.mod_pos_bound x 256). lia.
Qed.

Lemma encode_chunks_bytes (m : nat) :
  forall c l, Forall (fun d => 0 <= d <= 255) (fst (encode_chunks m c l)).
Proof.
  induction m as [|m IH]; intros c l; cbn [encode_chunks fst].
  - constructor.
  - constructor; [apply land_255_range|apply IH].
Qed.

(** A buffer after a whole number of groups: the rounds over the groups,
    then the rounds over the rest from the codec they leave. *)
Lemma encode_chunks_app (a : nat) (c : DFPWMCodec) (l1 l2 : list Z) :
  length l1 = (8 * a)%nat ->
  encode_chunks (length (l1 ++ l2) / 8) c (l1 ++ l2) =
  (fst (encode_chunks a c l1)
     ++ fst (encode_chunks (length l2 / 8) (snd (encode_chunks a c l1)) l2),
   snd (encode_chunks (length l2 / 8) (snd (encode_chunks a c l1)) l2)).
Proof.
  intros Hl.
  rewrite length_app, Hl, (Nat.mul_comm 8 a), Nat.div_add_l by lia.
  rewrite encode_chunks_plus.
  rewrite <- (encode_chunks_firstn a c (l1 ++ l2)).
  rewrite <- Hl, firstn_app, Nat.sub_diag, firstn_all, firstn_O, app_nil_r.
  rewrite skipn_app, Nat.sub_diag, skipn_all. reflexivity.
Qed.

Lemma aligned_length (l : list Z) :
  (length l mod 8 = 0)%nat -> length l = (8 * (length l / 8))%nat.
Proof. intros H. pose proof (Nat.div_mod_eq (length l) 8). lia. Qed.

Lemma compress_app (c : DFPWMCodec) (l1 l2 : list Z) :
  (length l1 mod 8 = 0)%nat ->
  compress_pcm_s8_to_dfpwm c (l1 ++ l2) =
  match compress_pcm_s8_to_dfpwm c l1 with
  | Some (o1, c1) =>
      match compress_pcm_s8_to_dfpwm c1 l2 with
      | Some (o2, c2) => Some (o1 ++ o2, c2)
      | None => None
      end
  | None => None
  end.
Proof.
  intros Hl. rewrite (compress_spec c l1).
  destruct (encode_chunks (length l1 / 8) c l1) as [o1 c1] eqn:E1.
  rewrite (compress_spec c1 l2).
  destruct (encode_chunks (length l2 / 8) c1 l2) as [o2 c2] eqn:E2.
  rewrite compress_spec, (encode_chunks_app (length l1 / 8))
    by now apply aligned_length.
  now rewrite E1; cbn [fst snd]; rewrite E2.
Qed.

Lemma for_range_short (k : nat) (pcm_s8 : list Z) :
  forall s : Loop,
    (0 < k)%nat ->
    (length pcm_s8 < idx s + k)%nat -> for_range k pcm_s8 s = None.
Proof.
  induction k as [|k IH]; intros [d i c] Hk H; simpl in *; [lia|].
  destruct (nth_error pcm_s8 i) as [b|] eqn:E; [|reflexivity].
  assert (i < length pcm_s8)%nat by (apply nth_error_Some; congruence).
  apply IH; simpl; lia.
Qed.

Lemma run_params (l : list Z) :
  forall c,
    newdfpwm (run c l) = newdfpwm c /\ dfpwm_old (run c l) = dfpwm_old c /\
    RESP_INC (run c l) = RESP_INC c /\ RESP_DEC (run c l) = RESP_DEC c /\
    RESP_PREC (run c l) = RESP_PREC c.
Proof.
  induction l as [|b l IH]; intros c; [repeat split|].
  apply (IH (sample_step c b)).
Qed.

End CodecInvariants.

Section CodecExtras.

(** X1: the response stays within the range of its precision: from a
    fresh codec, after any samples, it is between 0 and 1023 in current
    mode and between 0 and 255 in legacy mode. *)
Theorem response_stays_in_range (flag : bool) (l : list Z) :
  0 <= response (run (post_init flag) l) <= (if flag then 1023 else 255).
Proof.
  pose proof (run_inv l _ (post_init_inv flag)) as [_ Hr _].
  destruct (run_params l (post_init flag)) as (_ & _ & _ & _ & Hp).
  rewrite Hp in Hr. destruct flag; simpl in Hr; lia.
Qed.

(** X2: a call keeps a codec within its invariant: on a codec whose mode
    is one of the two and whose response and level are in range, the call
    returns, and the codec it leaves has the same mode parameters and its
    response and level in range again. *)
Theorem compress_keeps_invariant (c : DFPWMCodec) (pcm_s8 : list Z) :
  reachable_inv c ->
  exists out c',
    compress_pcm_s8_to_dfpwm c pcm_s8 = Some (out, c') /\
    reachable_inv c' /\
    newdfpwm c' = newdfpwm c /\ dfpwm_old c' = dfpwm_old c /\
    RESP_INC c' = RESP_INC c /\ RESP_DEC c' = RESP_DEC c /\
    RESP_PREC c' = RESP_PREC c.
Proof.
  intros Hc. rewrite compress_spec.
  set (r := encode_chunks (length pcm_s8 / 8) c pcm_s8).
  exists (fst r), (snd r). rewrite <- surjective_pairing.
  split; [reflexivity|]. unfold r. rewrite encode_chunks_state.
  split; [now apply run_inv|apply run_params].
Qed.

Lemma compress_keeps_invariant_witness :
  reachable_inv (post_init false) /\
  exists out c',
    compress_pcm_s8_to_dfpwm (post_init false) ramp = Some (out, c') /\
    0 <= response c' <= 2 ^ RESP_PREC c' - 1 /\
    -128 <= level c' <= 127 /\ RESP_PREC c' = 8.
Proof.
  pose proof (post_init_inv false) as H. split; [exact H|].
  destruct (compress_keeps_invariant (post_init false) ramp H)
    as (out & c' & E & [_ Hr Hl] & _ & _ & _ & _ & Hp).
  exists out, c'. repeat split; try assumption; lia.
Defined.

(** X3: an update moves the level toward the target of its bit and never
    past it: a true bit does not lower the level and raises it while it is
    below 127; a false bit does not raise it and lowers it while it is
    above -128. *)
Theorem level_moves_toward_target (c : DFPWMCodec) (curbit : bool) :
  reachable_inv c ->
  (curbit = true ->
   level c <= level (_ctx_update c curbit) <= 127 /\
   (level c < 127 -> level c < level (_ctx_update c curbit))) /\
  (curbit = false ->
   -128 <= level (_ctx_update c curbit) <= level c /\
   (-128 < level c -> level (_ctx_update c curbit) < level c)).
Proof.
  intros Hc. exact (nlevel_progress c curbit Hc).
Qed.

Lemma level_moves_toward_target_witness :
  reachable_inv (post_init true) /\
  level (post_init true) < level (_ctx_update (post_init true) true) /\
  level (_ctx_update (post_init true) false) < level (post_init true).
Proof.
  pose proof (post_init_inv true) as H. split; [exact H|].
  destruct (level_moves_toward_target (post_init true) true H)
    as [[_ Hup] _]; [reflexivity|].
  destruct (level_moves_toward_target (post_init true) false H)
    as [_ [_ Hdown]]; [reflexivity|].
  split; [apply Hup|apply Hdown]; simpl; lia.
Defined.

(** X4: every value the call returns is a byte, between 0 and 255, on
    any buffer of integers and any codec whose [RESP_PREC] is at least 1,
    as it is for every codec the constructor builds (the shifts of the
    update are then defined). *)
Theorem output_bytes_in_range (c : DFPWMCodec) (pcm_s8 : list Z) :
  1 <= RESP_PREC c ->
  exists out c',
    compress_pcm_s8_to_dfpwm c pcm_s8 = Some (out, c') /\
    Forall (fun d => 0 <= d <= 255) out.
Proof.
  intros _. rewrite compress_spec.
  set (r := encode_chunks (length pcm_s8 / 8) c pcm_s8).
  exists (fst r), (snd r). rewrite <- surjective_pairing.
  split; [reflexivity|apply encode_chunks_bytes].
Qed.

Lemma output_bytes_in_range_witness :
  1 <= RESP_PREC (post_init false) /\
  exists out c',
    compress_pcm_s8_to_dfpwm (post_init false) (ramp ++ [300; -7; 0])
    = Some (out, c') /\
    Forall (fun d => 0 <= d <= 255) out.
Proof.
  assert (H : 1 <= RESP_PREC (post_init false)) by (simpl; lia).
  split; [exact H|].
  exact (output_bytes_in_range (post_init false) (ramp ++ [300; -7; 0]) H).
Defined.

(** X5: a buffer that starts with a whole number of groups can be encoded
    in two calls: the call on [l1 ++ l2], with [len(l1)] a multiple of 8,
    returns the bytes of the call on [l1] followed by those of the call on
    [l2] made on the codec the first call left, and leaves the same
    codec. *)
Theorem compress_app_aligned (c : DFPWMCodec) (l1 l2 : list Z) :
  (length l1 mod 8 = 0)%nat ->
  exists o1 c1 o2 c2,
    compress_pcm_s8_to_dfpwm c l1 = Some (o1, c1) /\
    compress_pcm_s8_to_dfpwm c1 l2 = Some (o2, c2) /\
    compress_pcm_s8_to_dfpwm c (l1 ++ l2) = Some (o1 ++ o2, c2).
Proof.
  intros Hl. rewrite (compress_app c l1 l2 Hl).
  rewrite (compress_spec c l1).
  destruct (encode_chunks (length l1 / 8) c l1) as [o1 c1].
  exists o1, c1.
  destruct (encode_chunks (length l2 / 8) c1 l2) as [o2 c2] eqn:E2.
  exists o2, c2. rewrite compress_spec, E2. repeat split.
Qed.

Lemma compress_app_aligned_witness :
  (length ramp mod 8 = 0)%nat /\
  exists o1 c1 o2 c2,
    compress_pcm_s8_to_dfpwm (post_init true) ramp = Some (o1, c1) /\
    compress_pcm_s8_to_dfpwm c1 [1; 2; 3] = Some (o2, c2) /\
    compress_pcm_s8_to_dfpwm (post_init true) (ramp ++ [1; 2; 3]) =
    Some (o1 ++ o2, c2).
Proof.
  split; [reflexivity|].
  exact (compress_app_aligned (post_init true) ramp [1; 2; 3] eq_refl).
Defined.

(** X6: on a codec whose [RESP_PREC] is at least 1, as it is for every
    codec the constructor builds, the inner loop of [k] rounds raises
    [IndexError] exactly when it has a round to run and fewer than [k]
    samples are left at the read index; otherwise it ends [k] samples
    further. *)
Theorem for_range_raises_iff (k : nat) (pcm_s8 : list Z) (s : Loop) :
  1 <= RESP_PREC (codec s) ->
  (for_range k pcm_s8 s = None <->
   (0 < k)%nat /\ (length pcm_s8 < idx s + k)%nat) /\
  (forall s', for_range k pcm_s8 s = Some s' -> idx s' = (idx s + k)%nat).
Proof.
  intros _. destruct k as [|k].
  - simpl. split.
    + split; [discriminate|lia].
    + intros s' E. injection E as <-. lia.
  - destruct (Nat.lt_ge_cases (length pcm_s8) (idx s + S k)) as [H|H].
    + rewrite (for_range_short (S k) pcm_s8 s) by lia. split.
      * split; [intros _; lia|reflexivity].
      * discriminate.
    + rewrite (for_range_spec (S k) pcm_s8 s H). split.
      * split; [discriminate|lia].
      * intros s' E. injection E as <-. reflexivity.
Qed.

Lemma for_range_raises_iff_witness :
  1 <= RESP_PREC (codec (mkLoop 0 0 (post_init true))) /\
  ((0 < 8)%nat /\
   (length [1; 2; 3]%Z < idx (mkLoop 0 0 (post_init true)) + 8)%nat) /\
  for_range 8 [1; 2; 3] (mkLoop 0 0 (post_init true)) = None.
Proof.
  assert (Hp : 1 <= RESP_PREC (codec (mkLoop 0 0 (post_init true))))
    by (simpl; lia).
  assert (H : (0 < 8)%nat /\
              (length [1; 2; 3]%Z
               < idx (mkLoop 0 0 (post_init true)) + 8)%nat)
    by (simpl; lia).
  split; [exact Hp|]. split; [exact H|].
  exact (proj2 (proj1 (for_range_raises_iff 8 [1; 2; 3]
                         (mkLoop 0 0 (post_init true)) Hp)) H).
Defined.

End CodecExtras.

(** ** Splitting into chunks *)

Section Splitting.

Lemma ceil_step (m cs : nat) :
  (1 <= cs)%nat -> (1 <= m)%nat ->
  ((m + cs - 1) / cs = S ((m - cs + cs - 1) / cs))%nat.
Proof.
  intros Hcs Hm. destruct (Nat.le_gt_cases cs m) as [H|H].
  - replace (m + cs - 1)%nat with (1 * cs + (m - cs + cs - 1))%nat by lia.
    rewrite Nat.div_add_l by lia. reflexivity.
  - replace (m - cs + cs - 1)%nat with (cs - 1)%nat by lia.
    replace (m + cs - 1)%nat with (1 * cs + (m - 1))%nat by lia.
    rewrite Nat.div_add_l, !Nat.div_small by lia. reflexivity.
Qed.

(** The bounds of the rounded-up quotient. *)
Lemma ceil_bounds (n cs : nat) :
  (1 <= cs)%nat ->
  (n <= (n + cs - 1) / cs * cs)%nat /\
  (1 <= n -> ((n + cs - 1) / cs - 1) * cs < n)%nat /\
  (n = 0 -> (n + cs - 1) / cs = 0)%nat.
Proof.
  intros Hcs.
  pose proof (Nat.div_mod_eq (n + cs - 1) cs) as E.
  pose proof (Nat.mod_upper_bound (n + cs - 1) cs) as U.
  set (q := ((n + cs - 1) / cs)%nat) in *.
  set (r := ((n + cs - 1) mod cs)%nat) in *.
  clearbody q r. repeat split; nia.
Qed.

(** The values of [range(i, stop, step)]. *)
Lemma range_from_seq (n cs : nat) :
  (1 <= cs)%nat ->
  forall fuel i,
    (n - i <= fuel)%nat ->
    range_from fuel i n cs =
    map (fun k => i + k * cs)%nat (seq 0 ((n - i + cs - 1) / cs)).
Proof.
  intros Hcs. induction fuel as [|fuel IH]; intros i Hf; simpl.
  - replace (n - i)%nat with 0%nat by lia.
    rewrite Nat.div_small by lia. reflexivity.
  - destruct (i <? n)%nat eqn:E.
    + apply Nat.ltb_lt in E.
      rewrite (ceil_step (n - i) cs) by lia.
      rewrite IH by lia.
      replace (n - (i + cs))%nat with (n - i - cs)%nat by lia.
      cbn [seq map]. rewrite <- seq_shift, map_map.
      f_equal; [lia|]. apply map_ext. intros k. simpl. lia.
    + apply Nat.ltb_ge in E. replace (n - i)%nat with 0%nat by lia.
      rewrite Nat.div_small by lia. reflexivity.
Qed.

(** The chunks of a buffer for a positive chunk size. *)
Lemma split_pcm_chunks (pcm : list Z) (chunk_size : Z) :
  0 < chunk_size ->
  split_pcm pcm chunk_size =
  Ok (map (fun k => firstn (Z.to_nat chunk_size)
                           (skipn (k * Z.to_nat chunk_size) pcm))
          (seq 0 ((length pcm + Z.to_nat chunk_size - 1)
                  / Z.to_nat chunk_size))).
Proof.
  intros Hcs. unfold split_pcm.
  replace (chunk_size =? 0) with false by lia.
  replace (chunk_size <? 0) with false by lia.
  rewrite (range_from_seq (length pcm) (Z.to_nat chunk_size)) by lia.
  rewrite Nat.sub_0_r, map_map. reflexivity.
Qed.

Lemma slices_concat (pcm : list Z) (cs count : nat) :
  concat (map (fun k => firstn cs (skipn (k * cs) pcm)) (seq 0 count)) =
  firstn (count * cs) pcm.
Proof.
  induction count as [|count IH]; [reflexivity|].
  rewrite seq_S, map_app, concat_app, IH. simpl.
  rewrite app_nil_r, (Nat.add_comm cs), firstn_plus. reflexivity.
Qed.

Lemma slice_length (pcm : list Z) (cs k : nat) :
  length (firstn cs (skipn (k * cs) pcm)) = Nat.min cs (length pcm - k * cs).
Proof. now rewrite length_firstn, length_skipn. Qed.

(** With a chunk size that is a multiple of 8, every chunk but the last
    is a whole number of groups. *)
Lemma slices_aligned (pcm : list Z) (cs : nat) :
  (1 <= cs)%nat -> (cs mod 8 = 0)%nat ->
  Forall (fun ch => length ch mod 8 = 0)%nat
         (removelast
            (map (fun k => firstn cs (skipn (k * cs) pcm))
                 (seq 0 ((length pcm + cs - 1) / cs)))).
Proof.
  intros Hcs H8.
  destruct (ceil_bounds (length pcm) cs Hcs) as (_ & Hlast & Hzero).
  destruct ((length pcm + cs - 1) / cs)%nat as [|count] eqn:E.
  - constructor.
  - rewrite seq_S, map_app. simpl. rewrite removelast_last.
    apply Forall_forall. intros ch Hin.
    apply in_map_iff in Hin as (k & <- & Hk). apply in_seq in Hk.
    rewrite slice_length.
    assert (1 <= length pcm)%nat by (destruct (length pcm); [|lia];
                                     specialize (Hzero eq_refl); lia).
    specialize (Hlast ltac:(lia)).
    rewrite Nat.min_l by nia. exact H8.
Qed.

End Splitting.

(** ** The worker's loop *)

Section Worker.

Lemma whole_groups_length (pcm : list Z) :
  length (whole_groups pcm) = (8 * (length pcm / 8))%nat.
Proof.
  unfold whole_groups. apply firstn_length_le.
  pose proof (Nat.div_mod_eq (length pcm) 8). lia.
Qed.

(** A call reads the whole groups of its buffer and nothing else. *)
Lemma compress_whole_groups (c : DFPWMCodec) (pcm : list Z) :
  compress_pcm_s8_to_dfpwm c (whole_groups pcm) =
  compress_pcm_s8_to_dfpwm c pcm.
Proof.
  rewrite !compress_spec, whole_groups_length.
  rewrite Nat.mul_comm, Nat.div_mul by lia.
  unfold whole_groups. now rewrite encode_chunks_firstn.
Qed.

(** The loop never raises; it writes one file per chunk, numbered from
    [i], each with an eighth of the chunk's length; and its files, put end
    to end, are the bytes of one call on the whole groups of the chunks,
    put end to end, which also leaves the same codec. *)
Lemma encode_loop_spec (pcm_chunks : list (list Z)) :
  forall (c : DFPWMCodec) (i : nat),
  exists files c',
    encode_loop c i pcm_chunks = Some (files, c') /\
    map fst files = seq i (length pcm_chunks) /\
    map (fun f => length (snd f)) files =
      map (fun pcm => (length pcm / 8)%nat) pcm_chunks /\
    compress_pcm_s8_to_dfpwm c (concat (map whole_groups pcm_chunks)) =
      Some (concat (map snd files), c').
Proof.
  induction pcm_chunks as [|pcm rest IH]; intros c i.
  - exists [], c. repeat split.
  - cbn [encode_loop]. rewrite (compress_spec c pcm).
    destruct (encode_chunks (length pcm / 8) c pcm) as [o c1] eqn:E.
    destruct (IH c1 (S i)) as (files & c' & E1 & E2 & E3 & E4).
    rewrite E1. exists ((i, o) :: files), c'.
    split; [reflexivity|]. split; [simpl; now rewrite E2|].
    split.
    + simpl. rewrite E3. f_equal.
      change o with (fst (o, c1)). rewrite <- E. apply encode_chunks_length.
    + cbn [map concat fst snd].
      rewrite compress_app
        by (rewrite whole_groups_length, Nat.mul_comm; apply Nat.Div0.mod_mul).
      rewrite compress_whole_groups, (compress_spec c pcm), E, E4.
      reflexivity.
Qed.

(** When every chunk but the last is a whole number of groups, no sample
    is lost between chunks. *)
Lemma encode_loop_aligned (pcm_chunks : list (list Z)) :
  forall (c : DFPWMCodec) (i : nat),
    Forall (fun ch => length ch mod 8 = 0)%nat (removelast pcm_chunks) ->
    exists files c',
      encode_loop c i pcm_chunks = Some (files, c') /\
      map fst files = seq i (length pcm_chunks) /\
      compress_pcm_s8_to_dfpwm c (concat pcm_chunks) =
        Some (concat (map snd files), c').
Proof.
  induction pcm_chunks as [|pcm rest IH]; intros c i Hal.
  - exists [], c. repeat split.
  - cbn [encode_loop]. rewrite (compress_spec c pcm).
    destruct (encode_chunks (length pcm / 8) c pcm) as [o c1] eqn:E.
    destruct rest as [|pcm' rest].
    + exists [(i, o)], c1. repeat split.
      simpl. rewrite !app_nil_r, compress_spec, E. reflexivity.
    + change (removelast (pcm :: pcm' :: rest))
        with (pcm :: removelast (pcm' :: rest)) in Hal.
      pose proof (Forall_inv Hal) as Hpcm. apply Forall_inv_tail in Hal.
      destruct (IH c1 (S i) Hal) as (files & c' & E1 & E2 & E3).
      rewrite E1. exists ((i, o) :: files), c'.
      split; [reflexivity|]. split; [simpl; now rewrite E2|].
      change (concat (pcm :: pcm' :: rest))
        with (pcm ++ concat (pcm' :: rest)).
      rewrite (compress_app c pcm _ Hpcm), (compress_spec c pcm), E, E3.
      reflexivity.
Qed.

(** The chunks of a decoded buffer for a chunk size that is a positive
    multiple of 8, through the loop with a fresh current-mode codec: the
    writes are numbered from 1, there are as many as chunks, and their
    data put end to end is the encoding of the whole buffer by one call
    on a fresh current-mode codec. *)
Lemma convert_aligned (pcm : list Z) (sample_rate chunk_seconds : Z) :
  0 < sample_rate * chunk_seconds ->
  (sample_rate * chunk_seconds) mod 8 = 0 ->
  exists pcm_chunks files c',
    mp3_to_pcm_s8_chunks (Some pcm) sample_rate chunk_seconds
      = Ok pcm_chunks /\
    encode_loop (post_init true) 1 pcm_chunks = Some (files, c') /\
    map fst files =
      seq 1 ((length pcm + Z.to_nat (sample_rate * chunk_seconds) - 1)
             / Z.to_nat (sample_rate * chunk_seconds)) /\
    compress_pcm_s8_to_dfpwm (post_init true) pcm =
      Some (concat (map snd files), c').
Proof.
  intros Hpos H8. unfold mp3_to_pcm_s8_chunks.
  rewrite split_pcm_chunks by exact Hpos.
  set (cs := Z.to_nat (sample_rate * chunk_seconds)).
  assert (Hcs : (1 <= cs)%nat) by (unfold cs; lia).
  assert (Hcs8 : (cs mod 8 = 0)%nat).
  { unfold cs. apply Nat2Z.inj. rewrite Nat2Z.inj_mod, Z2Nat.id by lia.
    exact H8. }
  set (chunks := map _ _).
  destruct (encode_loop_aligned chunks (post_init true) 1
              (slices_aligned pcm cs Hcs Hcs8))
    as (files & c' & E1 & E2 & E3).
  exists chunks, files, c'. split; [reflexivity|]. split; [exact E1|].
  split.
  - rewrite E2. unfold chunks. now rewrite length_map, length_seq.
  - rewrite <- E3. unfold chunks. rewrite slices_concat.
    rewrite firstn_all2; [reflexivity|].
    apply (ceil_bounds (length pcm) cs Hcs).
Qed.

End Worker.

Section ChunkExtras.

(** X7: for a positive chunk size, the chunks of [mp3_to_pcm_s8_chunks]
    put end to end are the decoded buffer: no sample is lost, repeated or
    moved. *)
Theorem chunks_concat_is_pcm (pcm : list Z) (sample_rate chunk_seconds : Z) :
  0 < sample_rate * chunk_seconds ->
  exists chunks,
    mp3_to_pcm_s8_chunks (Some pcm) sample_rate chunk_seconds = Ok chunks /\
    concat chunks = pcm.
Proof.
  intros Hpos. unfold mp3_to_pcm_s8_chunks.
  rewrite split_pcm_chunks by exact Hpos.
  eexists. split; [reflexivity|].
  rewrite slices_concat. apply firstn_all2.
  apply ceil_bounds. lia.
Qed.

Lemma chunks_concat_is_pcm_witness :
  0 < 1 * 3 /\
  exists chunks,
    mp3_to_pcm_s8_chunks (Some [1; 2; 3; 4; 5; 6; 7]) 1 3 = Ok chunks /\
    concat chunks = [1; 2; 3; 4; 5; 6; 7].
Proof.
  assert (H : 0 < 1 * 3) by lia. split; [exact H|].
  exact (chunks_concat_is_pcm [1; 2; 3; 4; 5; 6; 7] 1 3 H).
Defined.

(** X8: for a positive chunk size [cs], there are [ceil(len(pcm) / cs)]
    chunks; chunk [k] is [pcm[k*cs : (k+1)*cs]]; no chunk is empty, every
    chunk but the last has exactly [cs] samples and the last has at most
    [cs]. *)
Theorem chunks_shape (pcm : list Z) (sample_rate chunk_seconds : Z) :
  0 < sample_rate * chunk_seconds ->
  let cs := Z.to_nat (sample_rate * chunk_seconds) in
  exists chunks,
    mp3_to_pcm_s8_chunks (Some pcm) sample_rate chunk_seconds = Ok chunks /\
    length chunks = ((length pcm + cs - 1) / cs)%nat /\
    forall k ch,
      nth_error chunks k = Some ch ->
      ch = firstn cs (skipn (k * cs) pcm) /\
      (1 <= length ch <= cs)%nat /\
      (S k < length chunks -> length ch = cs)%nat.
Proof.
  intros Hpos cs. unfold mp3_to_pcm_s8_chunks.
  rewrite split_pcm_chunks by exact Hpos. fold cs.
  assert (Hcs : (1 <= cs)%nat) by (unfold cs; lia).
  set (count := ((length pcm + cs - 1) / cs)%nat).
  eexists. split; [reflexivity|].
  rewrite length_map, length_seq. split; [reflexivity|].
  intros k ch Hk.
  assert (Hlt : (k < count)%nat).
  { apply (f_equal (fun o => match o with Some _ => true | None => false end))
      in Hk as Hs.
    destruct (Nat.lt_ge_cases k count) as [H|H]; [exact H|].
    rewrite (proj2 (nth_error_None _ k)) in Hk
      by (rewrite length_map, length_seq; exact H).
    discriminate. }
  rewrite nth_error_map in Hk.
  rewrite (nth_error_nth' (seq 0 count) 0%nat)
    in Hk by (rewrite length_seq; exact Hlt).
  rewrite seq_nth in Hk by exact Hlt. simpl in Hk. injection Hk as <-.
  split; [reflexivity|]. rewrite slice_length.
  destruct (ceil_bounds (length pcm) cs Hcs) as (_ & Hlast & Hzero).
  fold count in Hlast, Hzero.
  assert (Hn : (1 <= length pcm)%nat)
    by (destruct (length pcm); [specialize (Hzero eq_refl)|]; lia).
  specialize (Hlast Hn). split; [nia|].
  intros Hk'. apply Nat.min_l. nia.
Qed.

Lemma chunks_shape_witness :
  0 < 2 * 2 /\
  exists chunks,
    mp3_to_pcm_s8_chunks (Some [1; 2; 3; 4; 5; 6; 7; 8; 9]) 2 2 = Ok chunks /\
    length chunks = 3%nat /\
    nth_error chunks 2 = Some [9].
Proof.
  assert (H : 0 < 2 * 2) by lia. split; [exact H|].
  destruct (chunks_shape [1; 2; 3; 4; 5; 6; 7; 8; 9] 2 2 H)
    as (chunks & E & Hlen & _).
  exists chunks. split; [exact E|]. split; [exact Hlen|].
  injection E as <-. reflexivity.
Defined.

(** X9: no call of the encoder inside the loop raises: for any chunks
    and a codec whose [RESP_PREC] is at least 1, as it is for every codec
    the constructor builds, the loop hands [write_bytes] one call per
    chunk as long as the writes and progress calls return, numbered
    consecutively from its first index, and the data of a chunk has
    [len(chunk) // 8] bytes. *)
Theorem encode_loop_files
    (c : DFPWMCodec) (i : nat) (pcm_chunks : list (list Z)) :
  1 <= RESP_PREC c ->
  exists files c',
    encode_loop c i pcm_chunks = Some (files, c') /\
    map fst files = seq i (length pcm_chunks) /\
    map (fun f => length (snd f)) files =
      map (fun pcm => (length pcm / 8)%nat) pcm_chunks.
Proof.
  intros _. destruct (encode_loop_spec pcm_chunks c i)
    as (files & c' & E1 & E2 & E3 & _).
  exists files, c'. repeat split; assumption.
Qed.

Lemma encode_loop_files_witness :
  1 <= RESP_PREC (post_init true) /\
  exists files c',
    encode_loop (post_init true) 1 [ramp ++ [1; 2]; [5; 6; 7]; ramp]
      = Some (files, c') /\
    map fst files = [1; 2; 3]%nat /\
    map (fun f => length (snd f)) files = [1; 0; 1]%nat.
Proof.
  assert (H : 1 <= RESP_PREC (post_init true)) by (simpl; lia).
  split; [exact H|].
  exact (encode_loop_files (post_init true) 1
           [ramp ++ [1; 2]; [5; 6; 7]; ramp] H).
Defined.

(** X10: the codec is carried from chunk to chunk, and only the trailing
    [len % 8] samples of each chunk are skipped: the files put end to end
    are the bytes of one call on the whole groups of the chunks put end to
    end, and the loop leaves the codec that call leaves. *)
Theorem encode_loop_stream
    (c : DFPWMCodec) (i : nat) (pcm_chunks : list (list Z)) :
  exists files c',
    encode_loop c i pcm_chunks = Some (files, c') /\
    compress_pcm_s8_to_dfpwm c (concat (map whole_groups pcm_chunks)) =
      Some (concat (map snd files), c').
Proof.
  destruct (encode_loop_spec pcm_chunks c i)
    as (files & c' & E1 & _ & _ & E4).
  exists files, c'. split; assumption.
Qed.

(** X11: when the decoder has returned a buffer and the chunk size
    [sample_rate * chunk_seconds] is a positive multiple of 8, cutting
    into chunks changes nothing in what is encoded: the loop over the
    chunks of [mp3_to_pcm_s8_chunks], started as the worker starts it
    (fresh current-mode codec, first index 1), hands [write_bytes] the
    indices 1 to [ceil(len(pcm) / chunk_size)], and the data put end to
    end is the encoding of the whole decoded buffer by one call on a
    fresh current-mode codec. *)
Theorem aligned_chunks_lose_nothing
    (pcm : list Z) (sample_rate chunk_seconds : Z) :
  0 < sample_rate * chunk_seconds ->
  (sample_rate * chunk_seconds) mod 8 = 0 ->
  exists pcm_chunks files c',
    mp3_to_pcm_s8_chunks (Some pcm) sample_rate chunk_seconds
      = Ok pcm_chunks /\
    encode_loop (post_init true) 1 pcm_chunks = Some (files, c') /\
    map fst files =
      seq 1 ((length pcm + Z.to_nat (sample_rate * chunk_seconds) - 1)
             / Z.to_nat (sample_rate * chunk_seconds)) /\
    compress_pcm_s8_to_dfpwm (post_init true) pcm =
      Some (concat (map snd files), c').
Proof.
  exact (convert_aligned pcm sample_rate chunk_seconds).
Qed.

Lemma aligned_chunks_lose_nothing_witness :
  0 < 4 * 2 /\ (4 * 2) mod 8 = 0 /\
  exists pcm_chunks files,
    mp3_to_pcm_s8_chunks (Some (ramp ++ ramp ++ [1; 2; 3])) 4 2
      = Ok pcm_chunks /\
    option_map fst (encode_loop (post_init true) 1 pcm_chunks)
      = Some files /\
    map fst files = [1; 2; 3]%nat /\
    option_map fst
      (compress_pcm_s8_to_dfpwm (post_init true) (ramp ++ ramp ++ [1; 2; 3]))
    = Some (concat (map snd files)).
Proof.
  assert (H1 : 0 < 4 * 2) by lia.
  assert (H2 : (4 * 2) mod 8 = 0) by reflexivity.
  split; [exact H1|]. split; [exact H2|].
  destruct (aligned_chunks_lose_nothing (ramp ++ ramp ++ [1; 2; 3]) 4 2 H1 H2)
    as (chunks & files & c' & E0 & E1 & E2 & E3).
  exists chunks, files. split; [exact E0|].
  split; [rewrite E1; reflexivity|]. split; [exact E2|].
  rewrite E3. reflexivity.
Defined.

(** X12: when the decoder has returned a buffer, for the values the two
    spinboxes step through, a sample rate of 8000 + 1000 a up to 96000
    and a chunk duration of 5 + 5 b up to 600, the chunk size is a
    positive multiple of 8, so the data the loop hands to [write_bytes],
    put end to end, is the encoding of the whole decoded buffer by one
    call on a fresh current-mode codec. *)
Theorem spinbox_chunks_lose_nothing (pcm : list Z) (a b : Z) :
  0 <= a <= 88 -> 0 <= b <= 119 ->
  let sample_rate := 8000 + 1000 * a in
  let chunk_seconds := 5 + 5 * b in
  0 < sample_rate * chunk_seconds /\
  (sample_rate * chunk_seconds) mod 8 = 0 /\
  exists pcm_chunks files c',
    mp3_to_pcm_s8_chunks (Some pcm) sample_rate chunk_seconds
      = Ok pcm_chunks /\
    encode_loop (post_init true) 1 pcm_chunks = Some (files, c') /\
    compress_pcm_s8_to_dfpwm (post_init true) pcm =
      Some (concat (map snd files), c').
Proof.
  intros Ha Hb sample_rate chunk_seconds.
  assert (Hpos : 0 < sample_rate * chunk_seconds)
    by (unfold sample_rate, chunk_seconds; nia).
  assert (H8 : (sample_rate * chunk_seconds) mod 8 = 0).
  { unfold sample_rate, chunk_seconds.
    replace ((8000 + 1000 * a) * (5 + 5 * b))
      with ((625 * (8 + a) * (1 + b)) * 8) by ring.
    apply Z_mod_mult. }
  split; [exact Hpos|]. split; [exact H8|].
  destruct (convert_aligned pcm sample_rate chunk_seconds Hpos H8)
    as (chunks & files & c' & E0 & E1 & _ & E3).
  exists chunks, files, c'. repeat split; assumption.
Qed.

Lemma spinbox_chunks_lose_nothing_witness :
  0 <= 40 <= 88 /\ 0 <= 11 <= 119 /\
  (48000 * 60) mod 8 = 0 /\
  exists pcm_chunks files c',
    mp3_to_pcm_s8_chunks (Some ramp) 48000 60 = Ok pcm_chunks /\
    encode_loop (post_init true) 1 pcm_chunks = Some (files, c') /\
    compress_pcm_s8_to_dfpwm (post_init true) ramp =
      Some (concat (map snd files), c').
Proof.
  assert (Ha : 0 <= 40 <= 88) by lia.
  assert (Hb : 0 <= 11 <= 119) by lia.
  split; [exact Ha|]. split; [exact Hb|].
  exact (proj2 (spinbox_chunks_lose_nothing ramp 40 11 Ha Hb)).
Defined.

(** X13: once the decoder has returned a buffer, the splitting of
    [mp3_to_pcm_s8_chunks] raises [ValueError] exactly when
    [sample_rate * chunk_seconds] is 0 and raises nothing else; for a
    negative product it returns no chunk at all, whatever the buffer
    holds, and for a positive one it returns no chunk only for an empty
    buffer. *)
Theorem split_outcome (pcm : list Z) (sample_rate chunk_seconds : Z) :
  match mp3_to_pcm_s8_chunks (Some pcm) sample_rate chunk_seconds with
  | Raise ValueError => sample_rate * chunk_seconds = 0
  | Raise RuntimeError => False
  | Ok pcm_chunks =>
      sample_rate * chunk_seconds <> 0 /\
      (pcm_chunks = [] <-> sample_rate * chunk_seconds < 0 \/ pcm = [])
  end.
Proof.
  unfold mp3_to_pcm_s8_chunks.
  set (cs := sample_rate * chunk_seconds).
  destruct (Z.lt_trichotomy cs 0) as [H|[H|H]].
  - unfold split_pcm.
    replace (cs =? 0) with false by lia. replace (cs <? 0) with true by lia.
    split; [lia|]. split; [now left|reflexivity].
  - unfold split_pcm. replace (cs =? 0) with true by lia. exact H.
  - rewrite split_pcm_chunks by exact H. split; [lia|].
    assert (Hcs : (1 <= Z.to_nat cs)%nat) by lia.
    destruct (ceil_bounds (length pcm) (Z.to_nat cs) Hcs)
      as (Hup & _ & Hzero).
    split.
    + intros E. right. apply (f_equal (@length (list Z))) in E.
      rewrite length_map, length_seq in E. simpl in E.
      rewrite E in Hup. apply length_zero_iff_nil. lia.
    + intros [Hneg | ->]; [lia|].
      now rewrite (Hzero eq_refl).
Qed.

End ChunkExtras.

(** ** Drop paths *)

Section DropPath.

Variable isspace : Z -> bool.


Lemma lstrip_blank (w s : list Z) :
  all_space isspace w -> lstrip isspace (w ++ s) = lstrip isspace s.
Proof.
  induction w as [|ch w IH]; intros Hw; [reflexivity|].
  simpl. rewrite (Forall_inv Hw). apply IH, (Forall_inv_tail Hw).
Qed.

Lemma lstrip_solid_head (s : list Z) :
  isspace (hd 0 s) = false -> lstrip isspace s = s.
Proof. destruct s as [|ch s]; simpl; [reflexivity|]. now intros ->. Qed.

Lemma lstrip_all_blank (w : list Z) :
  all_space isspace w -> lstrip isspace w = [].
Proof.
  intros Hw. rewrite <- (app_nil_r w). now rewrite lstrip_blank.
Qed.

Lemma hd_rev (p : list Z) : hd 0 (rev p) = last p 0.
Proof.
  destruct p as [|ch p] using rev_ind; [reflexivity|].
  now rewrite rev_unit, last_last.
Qed.

(** Stripping removes the whitespace around a string that neither starts
    nor ends with whitespace. *)
Lemma strip_core (w1 p w2 : list Z) :
  all_space isspace w1 -> all_space isspace w2 ->
  isspace (hd 0 p) = false -> isspace (last p 0) = false ->
  strip isspace (w1 ++ p ++ w2) = p.
Proof.
  intros H1 H2 Hh Hl. unfold strip.
  rewrite lstrip_blank by exact H1.
  destruct p as [|ch p].
  - simpl. rewrite (lstrip_all_blank w2 H2). reflexivity.
  - rewrite (lstrip_solid_head ((ch :: p) ++ w2)) by exact Hh.
    rewrite rev_app_distr, lstrip_blank by now apply Forall_rev.
    rewrite lstrip_solid_head by now rewrite hd_rev.
    apply rev_involutive.
Qed.

Lemma strip_blank (w : list Z) :
  all_space isspace w -> strip isspace w = [].
Proof.
  intros Hw. unfold strip. now rewrite (lstrip_all_blank w Hw).
Qed.

Lemma lstrip_keeps (ch : Z) (s : list Z) :
  In ch s -> isspace ch = false -> In ch (lstrip isspace s).
Proof.
  induction s as [|x s IH]; intros Hin Hch; [contradiction|].
  simpl. destruct (isspace x) eqn:E; [|exact Hin].
  destruct Hin as [->|Hin]; [congruence|now apply IH].
Qed.

Lemma strip_keeps (ch : Z) (s : list Z) :
  In ch s -> isspace ch = false -> In ch (strip isspace s).
Proof.
  intros Hin Hch. unfold strip.
  apply in_rev. rewrite rev_involutive.
  apply lstrip_keeps; [|exact Hch].
  apply -> in_rev. now apply lstrip_keeps.
Qed.

Lemma lstrip_incl (s : list Z) : incl (lstrip isspace s) s.
Proof.
  induction s as [|x s IH]; simpl; [apply incl_refl|].
  destruct (isspace x); [now apply incl_tl|apply incl_refl].
Qed.

Lemma strip_incl (s : list Z) : incl (strip isspace s) s.
Proof.
  unfold strip. intros ch Hin. apply in_rev in Hin.
  apply lstrip_incl, in_rev in Hin. now apply lstrip_incl.
Qed.

Lemma removelast_incl (s : list Z) : incl (removelast s) s.
Proof.
  induction s as [|x s IH]; [apply incl_refl|].
  destruct s as [|y s]; [intros ch []|].
  change (removelast (x :: y :: s)) with (x :: removelast (y :: s)).
  intros ch [->|Hin]; [now left|right; now apply IH].
Qed.

(** A run of non-whitespace goes to the word being read. *)
Lemma split_go_solid (a : list Z) :
  no_space isspace a ->
  forall cur rest,
    split_go isspace (a ++ rest) cur = split_go isspace rest (rev a ++ cur).
Proof.
  induction a as [|ch a IH]; intros Ha cur rest; [reflexivity|].
  simpl. rewrite (Forall_inv Ha), (IH (Forall_inv_tail Ha)).
  now rewrite <- app_assoc.
Qed.

(** Every word of a split is a non-empty run of non-whitespace of the
    string. *)
Lemma split_go_words (s : list Z) :
  forall cur,
    no_space isspace cur ->
    Forall (fun w => w <> [] /\ no_space isspace w /\ incl w (s ++ cur))
           (split_go isspace s cur).
Proof.
  induction s as [|ch s IH]; intros cur Hcur; simpl.
  - destruct cur as [|x cur]; constructor; [|constructor].
    split; [|split].
    + intros E. apply (f_equal (@length Z)) in E.
      rewrite length_rev in E. discriminate.
    + now apply Forall_rev.
    + intros y Hy. now apply in_rev in Hy.
  - destruct (isspace ch) eqn:E.
    + assert (Hrest : Forall (fun w => w <> [] /\ no_space isspace w /\
                                       incl w (ch :: s ++ cur))
                             (split_go isspace s [])).
      { eapply Forall_impl; [|apply (IH []); constructor].
        intros w (H1 & H2 & H3). repeat split; try assumption.
        intros y Hy. right. apply in_or_app. left.
        specialize (H3 y Hy). now rewrite app_nil_r in H3. }
      destruct cur as [|x cur]; [exact Hrest|].
      constructor; [|exact Hrest]. split; [|split].
      * intros E'. apply (f_equal (@length Z)) in E'.
        rewrite length_rev in E'. discriminate.
      * now apply Forall_rev.
      * intros y Hy. apply in_rev in Hy. right. apply in_or_app. now right.
    + eapply Forall_impl; [|apply (IH (ch :: cur)); now constructor].
      intros w (H1 & H2 & H3). repeat split; try assumption.
      intros y Hy. specialize (H3 y Hy).
      apply in_app_or in H3 as [H3|[<-|H3]];
        [right; apply in_or_app; now left
        |now left
        |right; apply in_or_app; now right].
Qed.

(** A split has no word exactly when the string is blank. *)
Lemma split_go_nil (s : list Z) :
  forall cur,
    split_go isspace s cur = [] <-> cur = [] /\ all_space isspace s.
Proof.
  induction s as [|ch s IH]; intros cur; simpl.
  - destruct cur as [|x cur].
    + split; [intros _; split; [reflexivity|constructor]|reflexivity].
    + split; [discriminate|intros [E _]; discriminate].
  - destruct (isspace ch) eqn:E.
    + destruct cur as [|x cur].
      * rewrite IH. split; intros [H1 H2]; split; try reflexivity.
        -- now constructor.
        -- exact (Forall_inv_tail H2).
      * split; [discriminate|intros [H _]; discriminate].
    + rewrite IH. split.
      * intros [H _]. discriminate.
      * intros [_ H]. pose proof (Forall_inv H) as H'. simpl in H'.
        congruence.
Qed.

End DropPath.

Section DropPathExtras.

Lemma braced_string (w : list Z) :
  braced (open_brace :: w ++ [close_brace]) = true /\
  removelast (tl (open_brace :: w ++ [close_brace])) = w /\
  last (open_brace :: w ++ [close_brace]) 0 = close_brace.
Proof.
  assert (L : last (open_brace :: w ++ [close_brace]) 0 = close_brace)
    by (change (open_brace :: w ++ [close_brace])
          with ((open_brace :: w) ++ [close_brace]); apply last_last).
  split; [|split; [apply removelast_last|exact L]].
  unfold braced. rewrite L. reflexivity.
Qed.

Lemma split_first_word (isspace : Z -> bool) (a rest : list Z) :
  a <> [] -> no_space isspace a ->
  (rest = [] \/ isspace (hd 0 rest) = true) ->
  exists words, split isspace (a ++ rest) = a :: words.
Proof.
  intros Ha Hs Hrest. unfold split.
  rewrite (split_go_solid isspace a Hs), app_nil_r.
  assert (Hr : rev a <> []).
  { intros E. apply Ha. apply (f_equal (@rev Z)) in E.
    now rewrite rev_involutive in E. }
  destruct rest as [|sp rest]; simpl.
  - destruct (rev a) eqn:E; [contradiction|].
    rewrite <- E, rev_involutive. now exists [].
  - destruct Hrest as [Hrest|Hrest]; [discriminate|]. simpl in Hrest.
    rewrite Hrest. destruct (rev a) eqn:E; [contradiction|].
    rewrite <- E, rev_involutive. eexists. reflexivity.
Qed.

Lemma strip_trimmed (isspace : Z -> bool) (p : list Z) :
  isspace (hd 0 p) = false -> isspace (last p 0) = false ->
  strip isspace p = p.
Proof.
  intros Hh Hl.
  pose proof (strip_core isspace [] p [] (Forall_nil _) (Forall_nil _) Hh Hl)
    as E.
  simpl in E. now rewrite app_nil_r in E.
Qed.

Lemma solid_ends (isspace : Z -> bool) (p : list Z) :
  p <> [] -> no_space isspace p ->
  isspace (hd 0 p) = false /\ isspace (last p 0) = false.
Proof.
  intros Hp Hs. unfold no_space in Hs. rewrite Forall_forall in Hs.
  split; apply Hs.
  - destruct p; [contradiction|now left].
  - rewrite (app_removelast_last 0 Hp) at 2. apply in_or_app. right.
    now left.
Qed.

(** X14: whatever [normalise_drop_path] returns is one word of its
    argument: it is not empty, it holds no whitespace, and all its code
    points come from the argument. *)
Theorem drop_path_is_a_word (isspace : Z -> bool) (data p : list Z) :
  normalise_drop_path isspace data = Some p ->
  p <> [] /\ no_space isspace p /\ incl p data.
Proof.
  unfold normalise_drop_path.
  set (s := strip isspace data).
  set (s' := if braced s then removelast (tl s) else s).
  assert (Hincl : incl s' data).
  { apply incl_tran with s; [|apply strip_incl].
    unfold s'. destruct (braced s); [|apply incl_refl].
    apply incl_tran with (tl s); [apply removelast_incl|].
    destruct s; [apply incl_refl|now apply incl_tl, incl_refl]. }
  pose proof (split_go_words isspace s' [] (Forall_nil _)) as Hw.
  fold (split isspace s') in Hw.
  destruct (split isspace s') as [|w ws]; [discriminate|].
  intros E. injection E as <-.
  destruct (Forall_inv Hw) as (H1 & H2 & H3).
  rewrite app_nil_r in H3.
  split; [exact H1|]. split; [exact H2|].
  now apply incl_tran with s'.
Qed.

Lemma drop_path_is_a_word_witness :
  normalise_drop_path latin1_space [32; 97; 98; 32; 99; 10] = Some [97; 98] /\
  no_space latin1_space [97; 98].
Proof.
  assert (H : normalise_drop_path latin1_space [32; 97; 98; 32; 99; 10]
              = Some [97; 98]) by reflexivity.
  split; [exact H|].
  exact (proj1 (proj2 (drop_path_is_a_word _ _ _ H))).
Defined.

(** X15: [normalise_drop_path] raises [IndexError] on an argument of
    whitespace only (the empty string included), and on a pair of braces
    around whitespace only, with whitespace around the braces or not. *)
Theorem drop_path_blank_raises (isspace : Z -> bool) (w1 w w2 : list Z) :
  isspace open_brace = false -> isspace close_brace = false ->
  all_space isspace w1 -> all_space isspace w -> all_space isspace w2 ->
  normalise_drop_path isspace w = None /\
  normalise_drop_path isspace
    (w1 ++ (open_brace :: w ++ [close_brace]) ++ w2) = None.
Proof.
  intros Ho Hc H1 Hw H2. unfold normalise_drop_path. split.
  - rewrite (strip_blank isspace w Hw). reflexivity.
  - destruct (braced_string w) as (Hb & Hr & Hl).
    rewrite strip_core; try assumption; [|now rewrite Hl].
    rewrite Hb, Hr.
    replace (split isspace w) with (@nil (list Z)); [reflexivity|].
    symmetry. apply split_go_nil. now split.
Qed.

Lemma drop_path_blank_raises_witness :
  latin1_space open_brace = false /\ latin1_space close_brace = false /\
  all_space latin1_space [32] /\ all_space latin1_space [9; 32] /\
  all_space latin1_space [10] /\
  normalise_drop_path latin1_space [9; 32] = None /\
  normalise_drop_path latin1_space [32; 123; 9; 32; 125; 10] = None.
Proof.
  assert (Ho : latin1_space open_brace = false) by reflexivity.
  assert (Hc : latin1_space close_brace = false) by reflexivity.
  assert (H1 : all_space latin1_space [32]) by (repeat constructor).
  assert (Hw : all_space latin1_space [9; 32]) by (repeat constructor).
  assert (H2 : all_space latin1_space [10]) by (repeat constructor).
  repeat (split; [assumption|]).
  exact (drop_path_blank_raises latin1_space [32] [9; 32] [10]
           Ho Hc H1 Hw H2).
Defined.

(** X16: [normalise_drop_path] returns whenever its argument holds a code
    point that is neither whitespace nor a brace. *)
Theorem drop_path_returns
    (isspace : Z -> bool) (data : list Z) (ch : Z) :
  In ch data -> isspace ch = false ->
  ch <> open_brace -> ch <> close_brace ->
  exists p, normalise_drop_path isspace data = Some p.
Proof.
  intros Hin Hch Ho Hc. unfold normalise_drop_path.
  pose proof (strip_keeps isspace ch data Hin Hch) as Hs.
  set (s := strip isspace data) in *.
  set (s' := if braced s then removelast (tl s) else s).
  assert (Hs' : In ch s').
  { unfold s'. destruct (braced s) eqn:Hb; [|exact Hs].
    destruct s as [|x t]; [discriminate|]. unfold braced in Hb.
    apply andb_true_iff in Hb as [Hx Hl].
    apply Z.eqb_eq in Hx. apply Z.eqb_eq in Hl.
    destruct Hs as [->|Ht]; [contradiction|]. simpl tl.
    destruct t as [|y t]; [contradiction|].
    assert (Hne : y :: t <> []) by discriminate.
    change (last (x :: y :: t) 0) with (last (y :: t) 0) in Hl.
    rewrite (app_removelast_last 0 Hne), Hl in Ht.
    apply in_app_or in Ht as [Ht|[Ht|[]]]; [exact Ht|].
    now subst ch. }
  destruct (split isspace s') as [|p ps] eqn:E; [|now exists p].
  apply split_go_nil in E as [_ E].
  unfold all_space in E. rewrite Forall_forall in E.
  rewrite (E ch Hs') in Hch. discriminate.
Qed.

Lemma drop_path_returns_witness :
  In 97 [123; 32; 97; 125] /\ latin1_space 97 = false /\
  97 <> open_brace /\ 97 <> close_brace /\
  exists p, normalise_drop_path latin1_space [123; 32; 97; 125] = Some p.
Proof.
  assert (H1 : In 97 [123; 32; 97; 125]) by (simpl; tauto).
  assert (H2 : latin1_space 97 = false) by reflexivity.
  assert (H3 : 97 <> open_brace) by discriminate.
  assert (H4 : 97 <> close_brace) by discriminate.
  repeat (split; [assumption|]).
  exact (drop_path_returns latin1_space _ 97 H1 H2 H3 H4).
Defined.

(** X17: a path without whitespace that is not wrapped in braces comes
    back unchanged, whatever whitespace surrounds it in the argument. *)
Theorem drop_path_plain (isspace : Z -> bool) (w1 p w2 : list Z) :
  all_space isspace w1 -> all_space isspace w2 ->
  p <> [] -> no_space isspace p -> braced p = false ->
  normalise_drop_path isspace (w1 ++ p ++ w2) = Some p.
Proof.
  intros H1 H2 Hp Hs Hb. unfold normalise_drop_path.
  destruct (solid_ends isspace p Hp Hs) as [Hh Hl].
  rewrite strip_core by assumption. rewrite Hb.
  destruct (split_first_word isspace p [] Hp Hs (or_introl eq_refl))
    as [ws E].
  rewrite app_nil_r in E. now rewrite E.
Qed.

Lemma drop_path_plain_witness :
  all_space latin1_space [32; 9] /\ all_space latin1_space [13; 10] /\
  [67; 58; 47; 97] <> [] /\ no_space latin1_space [67; 58; 47; 97] /\
  braced [67; 58; 47; 97] = false /\
  normalise_drop_path latin1_space [32; 9; 67; 58; 47; 97; 13; 10] =
  Some [67; 58; 47; 97].
Proof.
  assert (H1 : all_space latin1_space [32; 9]) by (repeat constructor).
  assert (H2 : all_space latin1_space [13; 10]) by (repeat constructor).
  assert (H3 : [67; 58; 47; 97] <> []) by discriminate.
  assert (H4 : no_space latin1_space [67; 58; 47; 97])
    by (repeat constructor).
  assert (H5 : braced [67; 58; 47; 97] = false) by reflexivity.
  repeat (split; [assumption|]).
  exact (drop_path_plain latin1_space [32; 9] [67; 58; 47; 97] [13; 10]
           H1 H2 H3 H4 H5).
Defined.

(** X18: a path wrapped in braces is cut at its first whitespace: for an
    argument [{a sp b}], with [a] not empty and without whitespace and
    [sp] a whitespace, the result is [a], whatever [b] holds. *)
Theorem drop_path_braced_cut
    (isspace : Z -> bool) (a b : list Z) (sp : Z) :
  isspace open_brace = false -> isspace close_brace = false ->
  a <> [] -> no_space isspace a -> isspace sp = true ->
  normalise_drop_path isspace
    (open_brace :: (a ++ sp :: b) ++ [close_brace]) = Some a.
Proof.
  intros Ho Hc Ha Hs Hsp. unfold normalise_drop_path.
  destruct (braced_string (a ++ sp :: b)) as (Hb & Hr & Hl).
  rewrite strip_trimmed; [|exact Ho|now rewrite Hl].
  rewrite Hb, Hr.
  destruct (split_first_word isspace a (sp :: b) Ha Hs (or_intror Hsp))
    as [ws E].
  now rewrite E.
Qed.

Lemma drop_path_braced_cut_witness :
  latin1_space open_brace = false /\ latin1_space close_brace = false /\
  [67; 58; 47; 80] <> [] /\ no_space latin1_space [67; 58; 47; 80] /\
  latin1_space 32 = true /\
  normalise_drop_path latin1_space
    [123; 67; 58; 47; 80; 32; 87; 47; 102; 125] = Some [67; 58; 47; 80].
Proof.
  assert (Ho : latin1_space open_brace = false) by reflexivity.
  assert (Hc : latin1_space close_brace = false) by reflexivity.
  assert (Ha : [67; 58; 47; 80] <> []) by discriminate.
  assert (Hs : no_space latin1_space [67; 58; 47; 80])
    by (repeat constructor).
  assert (Hsp : latin1_space 32 = true) by reflexivity.
  repeat (split; [assumption|]).
  exact (drop_path_braced_cut latin1_space [67; 58; 47; 80] [87; 47; 102]
           32 Ho Hc Ha Hs Hsp).
Defined.

End DropPathExtras.

Section ResponseExtras.

(** X19: the response follows the bits: when the bit repeats the last
    one, an update does not lower the response and raises it while it is
    below [2^RESP_PREC - 1]; when the bit differs, the update does not
    raise it above the larger of its old value and the floor (8 in current
    mode, 0 in legacy mode) and lowers it while it is above the floor. *)
Theorem response_follows_bits (c : DFPWMCodec) (curbit : bool) :
  reachable_inv c ->
  let top := 2 ^ RESP_PREC c - 1 in
  let floor := if RESP_PREC c >? 8 then 8 else 0 in
  (curbit = lastbit c ->
   response c <= response (_ctx_update c curbit) <= top /\
   (response c < top -> response c < response (_ctx_update c curbit))) /\
  (curbit <> lastbit c ->
   response (_ctx_update c curbit) <= Z.max (response c) floor /\
   (floor < response c -> response (_ctx_update c curbit) < response c)).
Proof.
  intros [Hm Hr Hl] top floor. destruct Hm as [Hc|Hg].
  - assert (E : response (_ctx_update c curbit)
                = Z.max (Ctx.nresponse_unclamped c curbit) 8)
      by (simpl; unfold Ctx.nresponse; now apply clamp_current).
    rewrite E, (nresponse_unclamped_current _ _ Hc).
    destruct Hc as (_ & _ & _ & _ & Hp). unfold top, floor.
    rewrite Hp in *. change (2 ^ 10 - 1) with 1023 in *.
    change (10 >? 8) with true. cbv iota.
    split; intros Hb.
    + rewrite Hb, Bool.eqb_reflx.
      destruct (response c =? 1023) eqn:E1;
        [apply Z.eqb_eq in E1|apply Z.eqb_neq in E1]; lia.
    + replace (Bool.eqb curbit (lastbit c)) with false
        by (symmetry; now apply Bool.eqb_false_iff).
      destruct (response c =? 0) eqn:E1;
        [apply Z.eqb_eq in E1|apply Z.eqb_neq in E1]; lia.
  - destruct Hg as (_ & Hold & Hi & Hd & Hp). unfold top, floor. simpl.
    unfold Ctx.nresponse, Ctx.clamp, Ctx.nresponse_unclamped,
      Ctx.response_adapted, Ctx.rtarget, Ctx.rdelta.
    rewrite Hold, Hi, Hd, Hp in *. change (8 >? 8) with false. cbv iota.
    change (Z.shiftl 1 8 - 1) with 255. change (2 ^ 8 - 1) with 255 in *.
    rewrite !Z.shiftr_div_pow2 by lia. change (2 ^ 8) with 256.
    split; intros Hb.
    + rewrite Hb, Bool.eqb_reflx.
      set (q := (7 * (255 - response c) + 128) / 256).
      assert (Hq : q * 256 <= 7 * (255 - response c) + 128 < (q + 1) * 256).
      { unfold q.
        pose proof (Z.mul_div_le (7 * (255 - response c) + 128) 256).
        pose proof (Z.mul_succ_div_gt (7 * (255 - response c) + 128) 256).
        lia. }
      clearbody q.
      destruct ((response c + q =? response c)
                && negb (response c =? 255)) eqn:E.
      * apply andb_true_iff in E as [E1 E2].
        apply negb_true_iff, Z.eqb_neq in E2. lia.
      * apply andb_false_iff in E as [E|E];
          [apply Z.eqb_neq in E|apply negb_false_iff, Z.eqb_eq in E]; lia.
    + replace (Bool.eqb curbit (lastbit c)) with false
        by (symmetry; now apply Bool.eqb_false_iff).
      set (q := (20 * (0 - response c) + 128) / 256).
      assert (Hq : q * 256 <= 20 * (0 - response c) + 128 < (q + 1) * 256).
      { unfold q.
        pose proof (Z.mul_div_le (20 * (0 - response c) + 128) 256).
        pose proof (Z.mul_succ_div_gt (20 * (0 - response c) + 128) 256).
        lia. }
      clearbody q.
      destruct ((response c + q =? response c)
                && negb (response c =? 0)) eqn:E.
      * apply andb_true_iff in E as [E1 E2].
        apply negb_true_iff, Z.eqb_neq in E2. lia.
      * apply andb_false_iff in E as [E|E];
          [apply Z.eqb_neq in E|apply negb_false_iff, Z.eqb_eq in E]; lia.
Qed.

Lemma response_follows_bits_witness :
  reachable_inv (run (post_init false) ramp) /\
  true = lastbit (run (post_init false) ramp) /\
  response (run (post_init false) ramp)
  < response (_ctx_update (run (post_init false) ramp) true).
Proof.
  pose proof (run_inv ramp _ (post_init_inv false)) as H.
  assert (Hb : true = lastbit (run (post_init false) ramp)) by reflexivity.
  split; [exact H|]. split; [exact Hb|].
  destruct (response_follows_bits _ true H) as [Hsame _].
  destruct (Hsame Hb) as [_ Hup]. apply Hup. vm_compute. reflexivity.
Defined.

End ResponseExtras.
